(** * nuxt-open-fetch: the runtime of the typed fetch client

    A shallow embedding of [src/runtime/fetch.ts]: the path template
    resolver [fillPath], the hook dispatch chain ([createHook],
    [getOpenFetchHooks]), the transport selection [getFetch] and the client
    factory [createOpenFetch], together with the parts of ECMAScript they
    call ([String.prototype.replace] with a string pattern,
    [encodeURIComponent], [String(v)], [Promise.all]).

    Strings are ECMAScript strings: finite sequences of UTF-16 code units,
    each code unit an integer.  Objects used as dictionaries are finite maps;
    the parameter record walked by [Object.entries] is the list of its
    entries in property order. *)

From Stdlib Require Import ZArith List Ascii String Lia Permutation.
From Stdlib Require Import Numbers.DecimalString.
From stdpp Require Import base option list gmap.

Local Open Scope Z_scope.

(** ** ECMAScript strings *)

Abbreviation ustring := (list Z).

(** A literal of the source, every character of which is ASCII. *)
Definition js (s : string) : ustring :=
  List.map (fun a => Z.of_N (N_of_ascii a)) (list_ascii_of_string s).

Definition lbrace : Z := 123.     (* { *)
Definition rbrace : Z := 125.     (* } *)
Definition dollar : Z := 36.      (* $ *)
Definition percent : Z := 37.     (* % *)
Definition ampersand : Z := 38.   (* & *)
Definition apostrophe : Z := 39.  (* ' *)
Definition backtick : Z := 96.    (* ` *)
Definition slash : Z := 47.       (* / *)

(** ** Values and abrupt completions *)

(** A Number, by what [Number::toString] reads of it: its sign and the
    digits [s] and exponent [n] of its shortest decimal form, the value being
    s×10^(n-k) for the k digits of [s] ([s = 0] is zero, of either sign); or
    NaN; or an infinity. *)
Inductive number : Type :=
| Finite (negative : bool) (s : N) (n : Z)
| NaN
| Infinity (negative : bool).

(** The decimal digits of a natural number. *)
Definition decimal (x : N) : ustring :=
  js (NilZero.string_of_uint (N.to_uint x)).

(** The integral Number whose shortest decimal form spells the integer [z]:
    every safe integer, and beyond them 1e21 and the like. *)
Definition integer (z : Z) : number :=
  Finite (z <? 0) (Z.abs_N z) (Z.of_nat (length (decimal (Z.abs_N z)))).
Coercion integer : Z >-> number.

(** The values a path parameter or a scalar option can hold: the primitive
    values and arrays of values.  An object that is not an array is not a
    value of this type: [String] runs whatever [toString] the object has. *)
#[warnings="-register-all"]
Inductive jsval : Type :=
| VUndefined
| VNull
| VBool (b : bool)
| VNumber (x : number)
| VString (s : ustring)
| VArray (l : list jsval).

Inductive exn : Type :=
| URIError
| TypeError
| Thrown (v : jsval).

(** The result of evaluating code that may throw. *)
Inductive completion (A : Type) : Type :=
| Normal (a : A)
| Throw (e : exn).
Arguments Normal {A} a.
Arguments Throw {A} e.

#[global] Instance completion_ret : MRet completion := fun A a => Normal a.
#[global] Instance completion_bind : MBind completion := fun A B k c =>
  match c with
  | Normal a => k a
  | Throw e => Throw e
  end.

(** The digits without the zeros at their end. *)
Fixpoint strip_zeros (ds : ustring) : ustring :=
  match ds with
  | [] => []
  | d :: r =>
      match strip_zeros r with
      | [] => if d =? 48 then [] else [d]
      | r' => d :: r'
      end
  end.

(** [Number::toString(x)] in radix 10. *)
Definition NumberToString (x : number) : ustring :=
  match x with
  | NaN => js "NaN"
  | Infinity negative => (if negative then js "-" else []) ++ js "Infinity"
  | Finite negative s n =>
      if (s =? 0)%N then js "0"
      else
        let digits := strip_zeros (decimal s) in
        let k := Z.of_nat (length digits) in
        (if negative then js "-" else [])
        ++ (if (-5 <=? n) && (n <=? 21) then
              if k <=? n then digits ++ replicate (Z.to_nat (n - k)) 48
              else if 0 <? n then
                take (Z.to_nat n) digits ++ js "." ++ drop (Z.to_nat n) digits
              else js "0." ++ replicate (Z.to_nat (- n)) 48 ++ digits
            else
              let e := n - 1 in
              let exponent :=
                (if e <? 0 then js "-" else js "+") ++ decimal (Z.abs_N e) in
              match digits with
              | [] => []
              | [d] => [d] ++ js "e" ++ exponent
              | d :: rest => [d] ++ js "." ++ rest ++ js "e" ++ exponent
              end)
  end.

(** [Array.prototype.join]: the elements separated by commas, an undefined
    or null element giving the empty string, any other its string form
    [f]. *)
Definition Array_join (f : jsval -> ustring) : list jsval -> ustring :=
  fix join (l : list jsval) : ustring :=
    match l with
    | [] => []
    | x :: r =>
        (match x with VUndefined | VNull => [] | _ => f x end)
        ++ match r with [] => [] | _ => js "," ++ join r end
    end.

(** [String(v)] *)
Fixpoint ToString (v : jsval) : ustring :=
  match v with
  | VUndefined => js "undefined"
  | VNull => js "null"
  | VBool true => js "true"
  | VBool false => js "false"
  | VNumber x => NumberToString x
  | VString s => s
  | VArray l => Array_join ToString l
  end.

(** [!v] is [negb (truthy v)] *)
Definition truthy (v : jsval) : bool :=
  match v with
  | VUndefined | VNull => false
  | VBool b => b
  | VNumber (Finite _ s _) => negb (s =? 0)%N
  | VNumber NaN => false
  | VNumber (Infinity _) => true
  | VString s => match s with [] => false | _ => true end
  | VArray _ => true
  end.

(** A value in a hook field that makes the callback throw: a falsy value is
    passed over, an empty array gives [Promise.all([])], and anything else is
    called without being a function. *)
Definition uncallable (v : jsval) : bool :=
  match v with
  | VArray [] => false
  | _ => truthy v
  end.

(** ** encodeURIComponent *)

(** uriAlpha, DecimalDigit and uriMark *)
Definition uriUnescaped : ustring :=
  js "ABCDEFGHIJKLMNOPQRSTUVWXYZabcdefghijklmnopqrstuvwxyz0123456789-_.!~*'()".

Definition unescaped (c : Z) : bool := existsb (Z.eqb c) uriUnescaped.

Definition is_lead (c : Z) : bool := (0xD800 <=? c) && (c <=? 0xDBFF).
Definition is_trail (c : Z) : bool := (0xDC00 <=? c) && (c <=? 0xDFFF).

Definition UTF16SurrogatePairToCodePoint (lead trail : Z) : Z :=
  (lead - 0xD800) * 0x400 + (trail - 0xDC00) + 0x10000.

(** The UTF-8 octets of a code point. *)
Definition utf8 (cp : Z) : list Z :=
  if cp <? 0x80 then [cp]
  else if cp <? 0x800 then
    [Z.lor 0xC0 (Z.shiftr cp 6); Z.lor 0x80 (Z.land cp 0x3F)]
  else if cp <? 0x10000 then
    [Z.lor 0xE0 (Z.shiftr cp 12);
     Z.lor 0x80 (Z.land (Z.shiftr cp 6) 0x3F);
     Z.lor 0x80 (Z.land cp 0x3F)]
  else
    [Z.lor 0xF0 (Z.shiftr cp 18);
     Z.lor 0x80 (Z.land (Z.shiftr cp 12) 0x3F);
     Z.lor 0x80 (Z.land (Z.shiftr cp 6) 0x3F);
     Z.lor 0x80 (Z.land cp 0x3F)].

Definition hexdigit (d : Z) : Z := if d <? 10 then 48 + d else 55 + d.

(** "%XX", upper case *)
Definition pct (octet : Z) : ustring :=
  [percent; hexdigit (Z.land (Z.shiftr octet 4) 15); hexdigit (Z.land octet 15)].

Definition pct_octets (octets : list Z) : ustring := List.concat (List.map pct octets).

(** [Encode(string, uriUnescaped)]: an unpaired surrogate throws a URIError. *)
Fixpoint encodeURIComponent (s : ustring) : completion ustring :=
  match s with
  | [] => Normal []
  | c :: rest =>
      if unescaped c then
        r ← encodeURIComponent rest; Normal (c :: r)
      else if is_lead c then
        match rest with
        | d :: rest' =>
            if is_trail d then
              r ← encodeURIComponent rest';
              Normal (pct_octets (utf8 (UTF16SurrogatePairToCodePoint c d)) ++ r)
            else Throw URIError
        | [] => Throw URIError
        end
      else if is_trail c then Throw URIError
      else
        r ← encodeURIComponent rest; Normal (pct_octets (utf8 c) ++ r)
  end.

(** ** String.prototype.replace with a string pattern *)

Fixpoint starts_with (pat s : ustring) : bool :=
  match pat, s with
  | [], _ => true
  | _ :: _, [] => false
  | p :: pat', c :: s' => (p =? c) && starts_with pat' s'
  end.

(** [StringIndexOf(s, pat, 0)] *)
Fixpoint StringIndexOf (s pat : ustring) : option nat :=
  if starts_with pat s then Some 0%nat
  else match s with
       | [] => None
       | _ :: s' => S <$> StringIndexOf s' pat
       end.

(** [GetSubstitution] when the pattern is a string, so that there are no
    captures: only [$$], [$&], [$`] and [$'] are special in the template. *)
Fixpoint GetSubstitution (matched preceding following template : ustring) : ustring :=
  match template with
  | [] => []
  | c :: t =>
      if c =? dollar then
        match t with
        | [] => [dollar]
        | d :: t' =>
            if d =? dollar then
              dollar :: GetSubstitution matched preceding following t'
            else if d =? backtick then
              preceding ++ GetSubstitution matched preceding following t'
            else if d =? ampersand then
              matched ++ GetSubstitution matched preceding following t'
            else if d =? apostrophe then
              following ++ GetSubstitution matched preceding following t'
            else dollar :: GetSubstitution matched preceding following t
        end
      else c :: GetSubstitution matched preceding following t
  end.

(** [s.replace(searchValue, replaceValue)], both strings: the first
    occurrence only. *)
Definition replace (s searchValue replaceValue : ustring) : ustring :=
  match StringIndexOf s searchValue with
  | None => s
  | Some pos =>
      let preceding := take pos s in
      let following := drop (pos + length searchValue) s in
      preceding
        ++ GetSubstitution searchValue preceding following replaceValue
        ++ following
  end.

(** ** fillPath *)

(** [Object.entries(params)]: the entries of a record in property order;
    the keys of a record are distinct. *)
Abbreviation entries := (list (ustring * jsval)).

(** The template literal [`{${k}}`]. *)
Definition placeholder (k : ustring) : ustring := lbrace :: k ++ [rbrace].

(** One turn of the loop: [path = path.replace(`{${k}}`, encodeURIComponent(String(v)))]. *)
Definition fillPath_step (path : ustring) (kv : ustring * jsval) : completion ustring :=
  r ← encodeURIComponent (ToString (snd kv));
  Normal (replace path (placeholder (fst kv)) r).

Fixpoint fillPath_loop (path : ustring) (es : entries) : completion ustring :=
  match es with
  | [] => Normal path
  | kv :: es' => p ← fillPath_step path kv; fillPath_loop p es'
  end.

(** [fillPath(path, params = {})]: an omitted [params] is the empty record. *)
Definition fillPath (path : ustring) (params : option entries) : completion ustring :=
  fillPath_loop path (default [] params).


(** ** Asynchronous calls *)

(** What a call of a (possibly asynchronous) function does, as its caller
    sees it: effects, points where it hands control back while a promise it
    awaits is pending, and how it ends. *)
Inductive task (Action : Type) : Type :=
| Return                              (* returns; the promise is fulfilled *)
| Raise (e : exn)                     (* throws *)
| Reject (e : exn)                    (* the promise it returned is rejected *)
| Forever                             (* the promise never settles *)
| Do (a : Action) (k : task Action)   (* an observable effect *)
| Suspend (k : task Action).          (* suspended until resumed *)
Arguments Return {Action}.
Arguments Raise {Action} e.
Arguments Reject {Action} e.
Arguments Forever {Action}.
Arguments Do {Action} a k.
Arguments Suspend {Action} k.

Inductive outcome : Type :=
| Fulfilled
| Rejected (e : exn)
| Pending.

(** Who produced an effect: a subscriber of the global channel, of the
    channel of the client, or the local hook at an index of the list. *)
Inductive tier : Type :=
| Global
| PerClient
| Local (i : nat).

#[global] Instance tier_eq_dec : EqDecision tier.
Proof. solve_decision. Defined.

Abbreviation event Action := (tier * Action)%type.

(** The effects of a run and how it ended. *)
Abbreviation run Action := (list (event Action) * outcome)%type.

Definition tag {Action} (t : tier) (tr : list Action) : list (event Action) :=
  List.map (pair t) tr.

(** The effects of one tier in a trace. *)
Definition project {Action} (t : tier) (tr : list (event Action)) : list Action :=
  omap (fun ev => if decide (fst ev = t) then Some (snd ev) else None) tr.

(** [await f(x)] with nothing else running: the effects of the call to its
    end, and how the promise settled. *)
Fixpoint await {Action} (t : task Action) : list Action * outcome :=
  match t with
  | Return => ([], Fulfilled)
  | Raise e | Reject e => ([], Rejected e)
  | Forever => ([], Pending)
  | Do a k => let '(tr, o) := await k in (a :: tr, o)
  | Suspend k => await k
  end.

(** Runs a call until it hands control back: the effects up to there and
    what is left of the call. *)
Fixpoint advance {Action} (t : task Action) : list Action * task Action :=
  match t with
  | Do a k => let '(tr, r) := advance k in (a :: tr, r)
  | _ => ([], t)
  end.

(** [await p; rest] inside an asynchronous function. *)
Definition and_then {Action} (p rest : run Action) : run Action :=
  match p with
  | (tr, Fulfilled) => let '(tr', o) := rest in (tr ++ tr', o)
  | _ => p
  end.

Definition skip {Action} : run Action := ([], Fulfilled).

Definition await_as {Action} (t : tier) (c : task Action) : run Action :=
  let '(tr, o) := await c in (tag t tr, o).

(** [hs.map(h => h(ctx))]: every entry is called in turn and runs until it
    first hands control back; an entry that throws ends the [map]. *)
Fixpoint call_each {Action} (i : nat) (calls : list (task Action))
  : list (event Action) * completion (list (task Action)) :=
  match calls with
  | [] => ([], Normal [])
  | c :: calls' =>
      let '(tr, r) := advance c in
      match r with
      | Raise e => (tag (Local i) tr, Throw e)
      | _ =>
          let '(tr', rs) := call_each (S i) calls' in
          (tag (Local i) tr ++ tr', rs' ← rs; Normal (r :: rs'))
      end
  end.

Definition rejection {Action} (p : task Action) : option exn :=
  match p with
  | Raise e | Reject e => Some e
  | _ => None
  end.

Definition fulfilled {Action} (p : task Action) : bool :=
  match p with
  | Return => true
  | _ => false
  end.

Definition first_rejection {Action} (ps : list (task Action)) : option exn :=
  head (omap rejection ps).

(** [await Promise.all(ps)]: rejected as soon as one of [ps] is, fulfilled
    once all of them are.  The suspended calls are resumed one at a time, in
    the order the environment settles what they wait for: [sched] lists the
    indices in that order, and a turn for a call that is not suspended
    passes.  The run ends with the first rejection: what the other calls
    still do after it is not recorded.  When [sched] runs out with a call
    still suspended the joint promise is pending. *)
Fixpoint promise_all {Action} (sched : list nat) (ps : list (task Action))
  : run Action :=
  match first_rejection ps with
  | Some e => ([], Rejected e)
  | None =>
      if forallb fulfilled ps then ([], Fulfilled)
      else
        match sched with
        | [] => ([], Pending)
        | i :: sched' =>
            match ps !! i with
            | Some (Suspend k) =>
                let '(tr, r) := advance k in
                let '(tr', o) := promise_all sched' (<[i:=r]> ps) in
                (tag (Local i) tr ++ tr', o)
            | _ => promise_all sched' ps
            end
        end
  end.

(** ** Options, hooks and the hook registry *)

Inductive FetchHook : Type :=
| onRequest
| onRequestError
| onResponse
| onResponseError.

Definition hook_name (hook : FetchHook) : ustring :=
  match hook with
  | onRequest => js "onRequest"
  | onRequestError => js "onRequestError"
  | onResponse => js "onResponse"
  | onResponseError => js "onResponseError"
  end.

(** The value of a field of [FetchOptions]: a scalar, a record ([path],
    [query], [headers]), or for a hook field one function or a list of
    functions of the event context. *)
Inductive optval (Ctx Action : Type) : Type :=
| OValue (v : jsval)
| ORecord (r : entries)
| OHook (h : Ctx -> task Action)
| OHooks (hs : list (Ctx -> task Action)).
Arguments OValue {Ctx Action} v.
Arguments ORecord {Ctx Action} r.
Arguments OHook {Ctx Action} h.
Arguments OHooks {Ctx Action} hs.

Abbreviation FetchOptions Ctx Action := (gmap ustring (optval Ctx Action)).

(** [Hookable]: [callHook(name, ctx)] calls the subscribers of a channel. *)
Record Hookable (Ctx Action : Type) : Type := {
  callHook : ustring -> Ctx -> task Action
}.
Arguments callHook {Ctx Action} _ _ _.

(** The callback [createHook] returns.  Its run depends on the order in which
    the environment resumes the local hooks it started together. *)
Abbreviation composed_hook Ctx Action := (list nat -> Ctx -> run Action).

Definition createHook {Ctx Action} (hooks : Hookable Ctx Action)
    (baseOpts : FetchOptions Ctx Action) (hook : FetchHook)
    (hookIdentifier : option ustring) : composed_hook Ctx Action :=
  fun sched ctx =>
    (* await hooks.callHook(`openFetch:${hook}`, ...args) *)
    and_then
      (await_as Global (callHook hooks (js "openFetch:" ++ hook_name hook) ctx))
      (and_then
         (* if (hookIdentifier) await hooks.callHook(`openFetch:${hook}:${hookIdentifier}`, ...) *)
         (match hookIdentifier with
          | Some (c :: id) =>
              await_as PerClient
                (callHook hooks
                   (js "openFetch:" ++ hook_name hook ++ js ":" ++ c :: id) ctx)
          | _ => skip
          end)
         (* const baseHook = baseOpts[hook]; if (baseHook) await (...) *)
         (match baseOpts !! hook_name hook with
          | Some (OHooks hs) =>
              (* Promise.all(baseHook.map(h => h(ctx))) *)
              let '(tr, started) := call_each 0 (List.map (fun h => h ctx) hs) in
              match started with
              | Throw e => (tr, Rejected e)
              | Normal ps => and_then (tr, Fulfilled) (promise_all sched ps)
              end
          | Some (OHook h) => await_as (Local 0) (h ctx)     (* baseHook(ctx) *)
          | Some (OValue v) =>
              (* a truthy value that is not a function cannot be called *)
              if uncallable v then ([], Rejected TypeError) else skip
          | Some (ORecord _) => ([], Rejected TypeError)
          | None => skip
          end)).

Definition openFetchHooks : list FetchHook :=
  [onRequest; onRequestError; onResponse; onResponseError].

Definition getOpenFetchHooks {Ctx Action} (hooks : option (Hookable Ctx Action))
    (baseOpts : FetchOptions Ctx Action) (hookIdentifier : option ustring)
  : gmap ustring (composed_hook Ctx Action) :=
  match hooks with
  | None => ∅
  | Some hooks =>
      foldl (fun acc hook =>
               <[hook_name hook := createHook hooks baseOpts hook hookIdentifier]> acc)
            ∅ openFetchHooks
  end.

(** ** The client factory *)

(** A field of the options handed to the transport: a field of the merged
    options, or a callback made by [createHook]. *)
Inductive topt (Ctx Action : Type) : Type :=
| Given (v : optval Ctx Action)
| Composed (h : composed_hook Ctx Action).
Arguments Given {Ctx Action} v.
Arguments Composed {Ctx Action} h.

Abbreviation TransportOptions Ctx Action := (gmap ustring (topt Ctx Action)).

(** [$fetch]: from a URL and options to the promise of the response. *)
Abbreviation Fetch Ctx Action R := (ustring -> TransportOptions Ctx Action -> R).

(** What the module reads from its surroundings: [import.meta.server] and
    [globalThis.$fetch]. *)
Record Runtime (Ctx Action R : Type) : Type := {
  import_meta_server : bool;
  globalThis_fetch : Fetch Ctx Action R
}.
Arguments import_meta_server {Ctx Action R} _.
Arguments globalThis_fetch {Ctx Action R} _.

(** The first argument of [createOpenFetch]: options, or a function from the
    options of the call (undefined when the call gives none). *)
Inductive BaseConfig (Ctx Action : Type) : Type :=
| Static (o : FetchOptions Ctx Action)
| Dynamic (f : option (FetchOptions Ctx Action) -> FetchOptions Ctx Action).
Arguments Static {Ctx Action} o.
Arguments Dynamic {Ctx Action} f.

Fixpoint assoc (k : ustring) (r : entries) : option jsval :=
  match r with
  | [] => None
  | (k', v) :: r' => if decide (k' = k) then Some v else assoc k r'
  end.

(** [!o] for a field that may be missing *)
Definition falsy {Ctx Action} (o : option (topt Ctx Action)) : bool :=
  match o with
  | None => true
  | Some (Given (OValue v)) => negb (truthy v)
  | Some _ => false
  end.

(** [o[0] === '/'] *)
Definition index0_is_slash {Ctx Action} (o : option (topt Ctx Action)) : bool :=
  match o with
  | Some (Given (OValue (VString (c :: _)))) => c =? slash
  | Some (Given (OValue (VArray (VString [c] :: _)))) => c =? slash
  | Some (Given (ORecord r)) =>
      match assoc (js "0") r with
      | Some (VString [c]) => c =? slash
      | _ => false
      end
  | _ => false
  end.

Definition getFetch {Ctx Action R} (env : Runtime Ctx Action R) (url : ustring)
    (opts : TransportOptions Ctx Action)
    (localFetch : option (Fetch Ctx Action R)) : Fetch Ctx Action R :=
  match localFetch with
  | Some localFetch =>
      if import_meta_server env then
        let isLocalFetch :=
          match url with c :: _ => c =? slash | [] => false end
          && (falsy (opts !! js "baseURL") || index0_is_slash (opts !! js "baseURL")) in
        if isLocalFetch then localFetch else globalThis_fetch env
      else globalThis_fetch env
  | None => globalThis_fetch env
  end.

(** The options of a call after the base configuration is applied: the
    value [baseOpts] is reassigned to. *)
Definition effectiveOptions {Ctx Action} (options : BaseConfig Ctx Action)
    (baseOpts : option (FetchOptions Ctx Action)) : FetchOptions Ctx Action :=
  match options with
  | Dynamic f => f baseOpts
  | Static o => default ∅ baseOpts ∪ o     (* { ...options, ...baseOpts } *)
  end.

(** [{ ...baseOpts, ...hooks }] *)
Definition overlay {Ctx Action} (baseOpts : FetchOptions Ctx Action)
    (hooks : gmap ustring (composed_hook Ctx Action)) : TransportOptions Ctx Action :=
  (Composed <$> hooks) ∪ (Given <$> baseOpts).

(** [opts?.path]: the option type admits a record of path parameters or
    nothing there.  A field that holds anything else (null, a string, an
    array, a function) is outside that type and is read as missing here,
    which the code does not do: statements that depend on it say so. *)
Definition path_of {Ctx Action} (opts : TransportOptions Ctx Action) : option entries :=
  match opts !! js "path" with
  | Some (Given (ORecord r)) => Some r
  | _ => None
  end.

Definition createOpenFetch {Ctx Action R} (env : Runtime Ctx Action R)
    (options : BaseConfig Ctx Action)
    (localFetch : option (Fetch Ctx Action R))
    (hookIdentifier : option ustring)
    (hooks : option (Hookable Ctx Action))
  : ustring -> option (FetchOptions Ctx Action) -> completion R :=
  fun url baseOpts =>
    let baseOpts := effectiveOptions options baseOpts in
    let opts := overlay baseOpts (getOpenFetchHooks hooks baseOpts hookIdentifier) in
    let fetch := getFetch env url opts localFetch in
    resolved ← fillPath url (path_of opts);
    Normal (fetch resolved opts).

(** ** Path templates as the specification describes them *)

(** A template is a sequence of literal text and [{name}] placeholders. *)
Inductive segment : Type :=
| Text (s : ustring)
| Param (name : ustring).

Definition render_segment (seg : segment) : ustring :=
  match seg with
  | Text s => s
  | Param name => placeholder name
  end.

Definition render (segs : list segment) : ustring :=
  List.concat (List.map render_segment segs).

(** Placeholders do not nest: literal text opens no brace, and a name holds
    no brace. *)
Definition well_formed (seg : segment) : Prop :=
  match seg with
  | Text s => lbrace ∉ s
  | Param name => (lbrace ∉ name) ∧ (rbrace ∉ name)
  end.

Definition params (segs : list segment) : list ustring :=
  omap (fun seg => match seg with Param name => Some name | Text _ => None end) segs.

(** The placeholders of a string: the brace-free names between a [{] and
    the next [}]. *)
Fixpoint scan (opened : option ustring) (s : ustring) : list ustring :=
  match s with
  | [] => []
  | c :: s' =>
      if c =? lbrace then scan (Some []) s'
      else if c =? rbrace then
        match opened with
        | Some name => rev name :: scan None s'
        | None => scan None s'
        end
      else scan (fmap (cons c) opened) s'
  end.

Definition placeholders (s : ustring) : list ustring := scan None s.

(** The first occurrence of [pat] replaced by [rep] taken literally. *)
Fixpoint replace_first (pat rep s : ustring) : ustring :=
  if starts_with pat s then rep ++ drop (length pat) s
  else match s with
       | [] => []
       | c :: s' => c :: replace_first pat rep s'
       end.

(** The first placeholder named [k] filled with [r]. *)
Fixpoint fill1 (k r : ustring) (segs : list segment) : list segment :=
  match segs with
  | [] => []
  | Param name :: segs' =>
      if decide (name = k) then Text r :: segs' else Param name :: fill1 k r segs'
  | seg :: segs' => seg :: fill1 k r segs'
  end.

(** The specification of [fillPath]: reading the template from the left,
    the first placeholder of each key of the map is replaced by the encoded
    value of the key; every other placeholder stays. *)
Fixpoint fill_spec (m : gmap ustring ustring) (segs : list segment) : list segment :=
  match segs with
  | [] => []
  | Text s :: segs' => Text s :: fill_spec m segs'
  | Param name :: segs' =>
      match m !! name with
      | Some r => Text r :: fill_spec (delete name m) segs'
      | None => Param name :: fill_spec m segs'
      end
  end.

(** Every placeholder replaced by the encoded value the map has for it. *)
Definition substitute (m : gmap ustring ustring) (segs : list segment) : ustring :=
  List.concat
    (List.map (fun seg => match seg with
                          | Text s => s
                          | Param name => default (placeholder name) (m !! name)
                          end) segs).

(** The percent-encoded string forms of the values of a record. *)
Fixpoint encode_entries (es : entries) : completion (list (ustring * ustring)) :=
  match es with
  | [] => Normal []
  | (k, v) :: es' =>
      r ← encodeURIComponent (ToString v);
      rs ← encode_entries es';
      Normal ((k, r) :: rs)
  end.

(** A character that is neither a brace nor a dollar sign. *)
Definition clean (c : Z) : Prop := c ≠ lbrace ∧ c ≠ rbrace ∧ c ≠ dollar.

(** One turn of the loop once the value is encoded, on the string and on
    the segments. *)
Definition replace_entry (path : ustring) (kr : ustring * ustring) : ustring :=
  replace path (placeholder kr.1) kr.2.

Definition fill_entry (segs : list segment) (kr : ustring * ustring) : list segment :=
  fill1 kr.1 kr.2 segs.

(** Two encodings of the same record in different orders: the same entries
    up to order, or the same error. *)
Definition same_entries (c c' : completion (list (ustring * ustring))) : Prop :=
  match c, c' with
  | Normal rs, Normal rs' => rs ≡ₚ rs'
  | Throw e, Throw e' => e = e'
  | _, _ => False
  end.

(** Whether a value is a string already. *)
Definition is_string (v : jsval) : bool :=
  match v with
  | VString _ => true
  | _ => false
  end.

(** ** Notions the statements about the dispatch use *)

(** The effects of [calls.map(...)]: every call up to the point where it
    first hands control back, in the order of the list. *)
Definition started {Action} (calls : list (task Action)) : list (event Action) :=
  List.concat (imap (fun i c => tag (Local i) (advance c).1) calls).

Definition global_channel (hook : FetchHook) : ustring :=
  js "openFetch:" ++ hook_name hook.

Definition client_channel (hook : FetchHook) (clientName : ustring) : ustring :=
  js "openFetch:" ++ hook_name hook ++ js ":" ++ clientName.

(** A hook of the global tier fails, or the global tier completes and a hook
    of the tier of the client fails: [tr] is what has run by then, [e] the
    reason. *)
Definition earlier_tier_fails {Ctx Action} (hooks : Hookable Ctx Action)
    (hook : FetchHook) (hookIdentifier : option ustring) (ctx : Ctx)
    (tr : list (event Action)) (e : exn) : Prop :=
  (∃ tg, await (callHook hooks (global_channel hook) ctx) = (tg, Rejected e)
         ∧ tr = tag Global tg)
  ∨ (∃ tg tc c id,
       hookIdentifier = Some (c :: id)
       ∧ await (callHook hooks (global_channel hook) ctx) = (tg, Fulfilled)
       ∧ await (callHook hooks (client_channel hook (c :: id)) ctx) = (tc, Rejected e)
       ∧ tr = tag Global tg ++ tag PerClient tc).

(** A URL or base URL that starts with a slash. *)
Definition root_relative (s : ustring) : Prop := ∃ s', s = slash :: s'.

(** How many times a call hands control back before it ends. *)
Fixpoint suspensions {Action} (t : task Action) : nat :=
  match t with
  | Do _ k => suspensions k
  | Suspend k => S (suspensions k)
  | _ => 0
  end.

(** A call that has handed control back or has ended. *)
Definition at_rest {Action} (t : task Action) : bool :=
  match t with
  | Do _ _ => false
  | _ => true
  end.

(** A call that, awaited alone, ends fulfilled. *)
Definition completes {Action} (t : task Action) : Prop := (await t).2 = Fulfilled.

(** The hook a field name stands for, if any. *)
Definition hook_of_name (k : ustring) : option FetchHook :=
  if decide (k = hook_name onRequest) then Some onRequest
  else if decide (k = hook_name onRequestError) then Some onRequestError
  else if decide (k = hook_name onResponse) then Some onResponse
  else if decide (k = hook_name onResponseError) then Some onResponseError
  else None.

(** The options the transport is called with. *)
Definition transport_options {Ctx Action} (options : BaseConfig Ctx Action)
    (hookIdentifier : option ustring) (hooks : option (Hookable Ctx Action))
    (callOptions : option (FetchOptions Ctx Action)) : TransportOptions Ctx Action :=
  let eff := effectiveOptions options callOptions in
  overlay eff (getOpenFetchHooks hooks eff hookIdentifier).

(** A field [baseURL] that leaves the local transport open.  As the type of
    the field has it, the field is missing or undefined, or it is a string
    that is empty or starts with a slash.  Of the other values a field can be
    given, null, false, zero and NaN count as no base URL, and an array or a
    record counts when its element [0] is the string of one slash. *)
Definition base_url_allows_local {Ctx Action} (o : option (topt Ctx Action)) : Prop :=
  match o with
  | None => True
  | Some (Given (OValue v)) =>
      match v with
      | VUndefined | VNull => True
      | VString s => s = [] ∨ root_relative s
      | VBool b => b = false
      | VNumber (Finite _ s _) => s = 0%N
      | VNumber NaN => True
      | VNumber (Infinity _) => False
      | VArray l => ∃ l', l = VString [slash] :: l'
      end
  | Some (Given (ORecord r)) => assoc (js "0") r = Some (VString [slash])
  | Some _ => False
  end.

(** The four conditions under which the local transport is taken; [o] is the
    field [baseURL] of the options. *)
Definition local_conditions {Ctx Action R} (env : Runtime Ctx Action R)
    (localFetch : option (Fetch Ctx Action R)) (url : ustring)
    (o : option (topt Ctx Action)) : Prop :=
  import_meta_server env = true
  ∧ is_Some localFetch
  ∧ root_relative url
  ∧ base_url_allows_local o.

(** ** Runs used as examples *)

(** A registry with a subscriber on [openFetch:onRequest] that suspends once
    and one on [openFetch:onRequest:api]. *)
Definition example_registry : Hookable unit nat :=
  {| callHook := fun name _ =>
       if decide (name = js "openFetch:onRequest")
       then Do 1%nat (Suspend (Do 2%nat Return))
       else if decide (name = js "openFetch:onRequest:api") then Do 3%nat Return
       else Return |}.

(** Two local [onRequest] hooks that each suspend once. *)
Definition example_options : FetchOptions unit nat :=
  {[ js "onRequest" :=
       OHooks [fun _ => Do 10%nat (Suspend (Do 11%nat Return));
               fun _ => Do 20%nat (Suspend (Do 21%nat Return))] ]}.

(** A registry whose subscriber on [openFetch:onResponse] throws after it
    was resumed. *)
Definition failing_registry : Hookable unit nat :=
  {| callHook := fun name _ =>
       if decide (name = js "openFetch:onResponse")
       then Do 1%nat (Suspend (Do 2%nat (Raise (Thrown (VString (js "boom"))))))
       else Do 3%nat Return |}.

(** A transport that answers with the URL and the names of the options it
    was called with, in a client (not server) build. *)
Definition recording_runtime : Runtime unit nat (ustring * list ustring) :=
  {| import_meta_server := false;
     globalThis_fetch := fun url opts => (url, (map_to_list opts).*1) |}.

(** A server build whose global transport answers 0; a local transport
    answers 1. *)
Definition server_runtime : Runtime unit nat nat :=
  {| import_meta_server := true; globalThis_fetch := fun _ _ => 0%nat |}.

Definition local_transport : Fetch unit nat nat := fun _ _ => 1%nat.

(** ** The request interceptor *)

(** The context the transport hands to an interceptor: the request, the
    options of the call, and the fields the interceptor does not touch
    (response, error). *)
Record FetchContext (Ctx Action Rest : Type) : Type := {
  request : ustring;
  options : TransportOptions Ctx Action;
  others : Rest
}.
Arguments request {Ctx Action Rest} _.
Arguments options {Ctx Action Rest} _.
Arguments others {Ctx Action Rest} _.

(** [ctx.request = fillPath(ctx.request, ctx.options.path)]: the context
    after the assignment, or the error [fillPath] throws. *)
Definition openFetchRequestInterceptor {Ctx Action Rest}
    (ctx : FetchContext Ctx Action Rest) : completion (FetchContext Ctx Action Rest) :=
  resolved ← fillPath (request ctx) (path_of (options ctx));
  Normal {| request := resolved; options := options ctx; others := others ctx |}.

(** [s.isWellFormed()]: no surrogate stands without its partner. *)
Fixpoint isWellFormed (s : ustring) : bool :=
  match s with
  | [] => true
  | c :: rest =>
      if is_lead c then
        match rest with
        | d :: rest' => is_trail d && isWellFormed rest'
        | [] => false
        end
      else negb (is_trail c) && isWellFormed rest
  end.

(** A value [encodeURIComponent(String(v))] throws on. *)
Definition unencodable (kv : ustring * jsval) : Prop :=
  encodeURIComponent (ToString kv.2) = Throw URIError.

(** The field [path] of merged options, as [fillPath] receives it. *)
Definition path_field {Ctx Action} (o : option (optval Ctx Action)) : option entries :=
  match o with
  | Some (ORecord r) => Some r
  | _ => None
  end.

(** How every hook of the chain of an event ends when it is awaited alone:
    the call of the global channel, the call of the channel of the client
    when there is a client name, and the local hooks (a field that cannot be
    called counts as a TypeError). *)
Definition tier_outcomes {Ctx Action} (hooks : Hookable Ctx Action)
    (baseOpts : FetchOptions Ctx Action) (hook : FetchHook)
    (hookIdentifier : option ustring) (ctx : Ctx) : list outcome :=
  (await (callHook hooks (global_channel hook) ctx)).2
  :: match hookIdentifier with
     | Some (c :: id) => [(await (callHook hooks (client_channel hook (c :: id)) ctx)).2]
     | _ => []
     end
  ++ match baseOpts !! hook_name hook with
     | Some (OHooks hs) => List.map (fun h => (await (h ctx)).2) hs
     | Some (OHook h) => [(await (h ctx)).2]
     | Some (OValue v) => if uncallable v then [Rejected TypeError] else []
     | Some (ORecord _) => [Rejected TypeError]
     | None => []
     end.

(** The three parts of the callback [createHook] returns. *)
Definition list_run {Action} (sched : list nat) (calls : list (task Action))
  : run Action :=
  let '(tr, started) := call_each 0 calls in
  match started with
  | Throw e => (tr, Rejected e)
  | Normal ps => and_then (tr, Fulfilled) (promise_all sched ps)
  end.

Definition global_run {Ctx Action} (hooks : Hookable Ctx Action)
    (hook : FetchHook) (ctx : Ctx) : run Action :=
  await_as Global (callHook hooks (global_channel hook) ctx).

Definition client_run {Ctx Action} (hooks : Hookable Ctx Action)
    (hook : FetchHook) (hookIdentifier : option ustring) (ctx : Ctx) : run Action :=
  match hookIdentifier with
  | Some (c :: id) =>
      await_as PerClient (callHook hooks (client_channel hook (c :: id)) ctx)
  | _ => skip
  end.

Definition local_run {Ctx Action} (baseOpts : FetchOptions Ctx Action)
    (hook : FetchHook) (sched : list nat) (ctx : Ctx) : run Action :=
  match baseOpts !! hook_name hook with
  | Some (OHooks hs) => list_run sched (List.map (fun h => h ctx) hs)
  | Some (OHook h) => await_as (Local 0) (h ctx)
  | Some (OValue v) => if uncallable v then ([], Rejected TypeError) else skip
  | Some (ORecord _) => ([], Rejected TypeError)
  | None => skip
  end.

(** Local [onRequest] hooks of which the second throws before it returns,
    and of which the second never settles. *)
Definition throwing_options : FetchOptions unit nat :=
  {[ js "onRequest" :=
       OHooks [fun _ => Do 10%nat (Suspend (Do 11%nat Return));
               fun _ => Do 20%nat (Raise (Thrown (VString (js "boom"))));
               fun _ => Do 30%nat Return] ]}.

Definition stalled_options : FetchOptions unit nat :=
  {[ js "onRequest" :=
       OHooks [fun _ => Do 10%nat (Suspend (Do 11%nat Return));
               fun _ => Do 20%nat (Suspend Forever)] ]}.

(** Every string a value holds, at any depth of its arrays, has its
    surrogates paired. *)
Fixpoint strings_well_formed (v : jsval) : bool :=
  match v with
  | VString s => isWellFormed s
  | VArray l => forallb strings_well_formed l
  | _ => true
  end.

(** The field [path] as its type has it: missing, undefined, or a record. *)
Definition path_typed {Ctx Action} (o : option (optval Ctx Action)) : Prop :=
  o = None ∨ o = Some (OValue VUndefined) ∨ ∃ r, o = Some (ORecord r).

(** * Properties *)

(** ** Characters of an encoded component *)

Lemma unescaped_clean c : unescaped c = true -> clean c.
Proof.
  unfold unescaped. intros H.
  apply existsb_exists in H as (x & Hin & Heq).
  apply Z.eqb_eq in Heq. subst x.
  vm_compute in Hin.
  repeat (destruct Hin as [<- | Hin]; [by vm_compute|]).
  destruct Hin.
Qed.

Lemma hexdigit_clean d : 0 <= d < 16 -> clean (hexdigit d).
Proof.
  intros Hd. unfold hexdigit, clean, lbrace, rbrace, dollar.
  destruct (d <? 10) eqn:E; [apply Z.ltb_lt in E | apply Z.ltb_ge in E]; lia.
Qed.

Lemma nibble_range x : 0 <= Z.land x 15 < 16.
Proof.
  change 15 with (Z.ones 4). rewrite Z.land_ones by lia.
  apply Z.mod_pos_bound. lia.
Qed.

Lemma pct_clean o : Forall clean (pct o).
Proof.
  unfold pct. repeat constructor; try (apply hexdigit_clean, nibble_range);
    unfold percent, lbrace, rbrace, dollar; lia.
Qed.

Lemma pct_octets_clean os : Forall clean (pct_octets os).
Proof.
  unfold pct_octets. induction os as [|o os IH]; cbn [List.map List.concat].
  - constructor.
  - apply Forall_app. split; [apply pct_clean | exact IH].
Qed.

Lemma encodeURIComponent_clean s r :
  encodeURIComponent s = Normal r -> Forall clean r.
Proof.
  remember (length s) as n eqn:Hn.
  revert s r Hn. induction n as [n IH] using lt_wf_ind. intros s r Hn.
  destruct s as [|c rest]; simpl.
  - intros [= <-]. constructor.
  - destruct (unescaped c) eqn:Hu.
    + destruct (encodeURIComponent rest) as [r'|] eqn:Hr; simpl; [|done].
      intros [= <-]. constructor; [by apply unescaped_clean|].
      eapply (IH (length rest)); [simpl in Hn; lia|reflexivity|exact Hr].
    + destruct (is_lead c).
      * destruct rest as [|d rest']; [done|].
        destruct (is_trail d); [|done].
        destruct (encodeURIComponent rest') as [r'|] eqn:Hr; simpl; [|done].
        intros [= <-]. apply Forall_app. split; [apply pct_octets_clean|].
        eapply (IH (length rest')); [simpl in Hn; lia|reflexivity|exact Hr].
      * destruct (is_trail c); [done|].
        destruct (encodeURIComponent rest) as [r'|] eqn:Hr; simpl; [|done].
        intros [= <-]. apply Forall_app. split; [apply pct_octets_clean|].
        eapply (IH (length rest)); [simpl in Hn; lia|reflexivity|exact Hr].
Qed.

Lemma clean_no_lbrace r : Forall clean r -> lbrace ∉ r.
Proof.
  intros H Hin. rewrite Forall_forall in H. by destruct (H _ Hin) as (? & _).
Qed.

Lemma clean_no_dollar r : Forall clean r -> dollar ∉ r.
Proof.
  intros H Hin. rewrite Forall_forall in H. by destruct (H _ Hin) as (_ & _ & ?).
Qed.

(** ** Replacing the first occurrence *)

Lemma GetSubstitution_literal matched preceding following template :
  dollar ∉ template ->
  GetSubstitution matched preceding following template = template.
Proof.
  induction template as [|c t IH]; [done|].
  intros [Hc Ht]%not_elem_of_cons. cbn [GetSubstitution].
  destruct (c =? dollar) eqn:E; [apply Z.eqb_eq in E; congruence|].
  by rewrite IH.
Qed.

Lemma replace_literal s pat rep :
  dollar ∉ rep -> replace s pat rep = replace_first pat rep s.
Proof.
  intros Hrep. unfold replace.
  induction s as [|c s IH]; cbn [StringIndexOf replace_first].
  - destruct (starts_with pat []); [|done].
    by rewrite GetSubstitution_literal.
  - destruct (starts_with pat (c :: s)).
    + by rewrite GetSubstitution_literal.
    + destruct (StringIndexOf s pat) as [pos|]; cbn [fmap option_fmap option_map].
      * rewrite GetSubstitution_literal in * by done.
        cbn [take drop Nat.add]. simpl. by rewrite <- IH.
      * by rewrite <- IH.
Qed.

Lemma starts_with_app pat s : starts_with pat (pat ++ s) = true.
Proof.
  induction pat as [|p pat IH]; [done|].
  simpl. by rewrite Z.eqb_refl, IH.
Qed.

Lemma replace_first_skip k r t s :
  lbrace ∉ t ->
  replace_first (placeholder k) r (t ++ s) = t ++ replace_first (placeholder k) r s.
Proof.
  induction t as [|c t IH]; [done|].
  intros [Hc Ht]%not_elem_of_cons.
  rewrite <- !app_comm_cons. cbn [replace_first placeholder starts_with].
  destruct (lbrace =? c) eqn:E; [apply Z.eqb_eq in E; congruence|].
  cbn [andb]. fold (placeholder k). by rewrite IH.
Qed.

Lemma starts_with_name k t s :
  rbrace ∉ k -> rbrace ∉ t ->
  starts_with (k ++ [rbrace]) (t ++ rbrace :: s) = bool_decide (t = k).
Proof.
  revert t. induction k as [|c k IH]; intros t Hk Ht.
  - destruct t as [|d t]; cbn [app starts_with].
    + by rewrite Z.eqb_refl.
    + apply not_elem_of_cons in Ht as [Hd _].
      apply Z.eqb_neq in Hd. by rewrite Hd.
  - apply not_elem_of_cons in Hk as [Hc Hk].
    destruct t as [|d t]; cbn [app starts_with].
    + assert ((c =? rbrace) = false) as -> by (apply Z.eqb_neq; congruence).
      done.
    + apply not_elem_of_cons in Ht as [Hd Ht].
      rewrite (IH t Hk Ht).
      destruct (c =? d) eqn:E.
      * apply Z.eqb_eq in E. subst d. cbn [andb].
        apply bool_decide_ext. split; congruence.
      * apply Z.eqb_neq in E. cbn [andb]. symmetry. apply bool_decide_eq_false.
        congruence.
Qed.

Lemma replace_first_here pat rep s : replace_first pat rep (pat ++ s) = rep ++ s.
Proof.
  assert (replace_first pat rep (pat ++ s)
          = if starts_with pat (pat ++ s) then rep ++ drop (length pat) (pat ++ s)
            else match pat ++ s with
                 | [] => []
                 | c :: s' => c :: replace_first pat rep s'
                 end) as -> by (by destruct (pat ++ s)).
  by rewrite starts_with_app, drop_app_length.
Qed.

Lemma replace_first_param k r t s :
  lbrace ∉ t -> rbrace ∉ t -> rbrace ∉ k ->
  replace_first (placeholder k) r (placeholder t ++ s)
  = if decide (t = k) then r ++ s
    else placeholder t ++ replace_first (placeholder k) r s.
Proof.
  intros Hl Hr Hk.
  destruct (decide (t = k)) as [->|Hne].
  - apply replace_first_here.
  - unfold placeholder at 2 3. rewrite <- !app_comm_cons, <- !app_assoc.
    cbn [app replace_first]. unfold placeholder at 1. cbn [starts_with].
    rewrite Z.eqb_refl. cbn [andb].
    rewrite starts_with_name by done.
    rewrite bool_decide_eq_false_2 by done.
    fold (placeholder k). f_equal.
    rewrite replace_first_skip by done. by f_equal.
Qed.

Lemma render_fill1 k r segs :
  Forall well_formed segs -> rbrace ∉ k ->
  replace_first (placeholder k) r (render segs) = render (fill1 k r segs).
Proof.
  intros Hwf Hk. induction Hwf as [|seg segs Hseg _ IH]; [done|].
  destruct seg as [t|t]; unfold render in *; cbn [List.map List.concat fill1 render_segment].
  - rewrite replace_first_skip by exact Hseg. by rewrite IH.
  - destruct Hseg as [Hl Hr].
    rewrite replace_first_param by done.
    destruct (decide (t = k)); [done|].
    cbn [List.map List.concat render_segment]. by rewrite IH.
Qed.

Lemma fill1_well_formed k r segs :
  lbrace ∉ r -> Forall well_formed segs -> Forall well_formed (fill1 k r segs).
Proof.
  intros Hr Hwf. induction Hwf as [|seg segs Hseg Hwf IH]; [constructor|].
  destruct seg as [t|t]; cbn [fill1].
  - by constructor.
  - destruct (decide (t = k)); by constructor.
Qed.

(** ** The loop of fillPath on a template without nesting *)

Lemma fillPath_loop_encode path es :
  fillPath_loop path es
  = rs ← encode_entries es; Normal (foldl replace_entry path rs).
Proof.
  revert path. induction es as [|[k v] es IH]; intros path; [done|].
  cbn [fillPath_loop encode_entries]. unfold fillPath_step. cbn [fst snd].
  destruct (encodeURIComponent (ToString v)) as [r|e]; [|done].
  cbn [mbind completion_bind]. rewrite IH.
  by destruct (encode_entries es).
Qed.

Lemma encodeURIComponent_error s e : encodeURIComponent s = Throw e -> e = URIError.
Proof.
  remember (length s) as n eqn:Hn.
  revert s Hn. induction n as [n IH] using lt_wf_ind. intros s Hn.
  destruct s as [|c rest]; cbn [encodeURIComponent]; [done|].
  destruct (unescaped c).
  - destruct (encodeURIComponent rest) eqn:Hr; [done|].
    intros [= <-]. eapply (IH (length rest)); [simpl in Hn; lia|reflexivity|exact Hr].
  - destruct (is_lead c).
    + destruct rest as [|d rest']; [congruence|].
      destruct (is_trail d); [|congruence].
      destruct (encodeURIComponent rest') eqn:Hr; [done|].
      intros [= <-]. eapply (IH (length rest')); [simpl in Hn; lia|reflexivity|exact Hr].
    + destruct (is_trail c); [congruence|].
      destruct (encodeURIComponent rest) eqn:Hr; [done|].
      intros [= <-]. eapply (IH (length rest)); [simpl in Hn; lia|reflexivity|exact Hr].
Qed.

Lemma encode_entries_error es e : encode_entries es = Throw e -> e = URIError.
Proof.
  induction es as [|[k v] es IH]; [done|]. cbn [encode_entries].
  destruct (encodeURIComponent (ToString v)) eqn:Hv.
  - destruct (encode_entries es); [done|]. intros [= <-]. by apply IH.
  - intros [= <-]. by eapply encodeURIComponent_error.
Qed.

Lemma encode_entries_spec es rs :
  encode_entries es = Normal rs ->
  rs.*1 = es.*1
  ∧ Forall (fun kr => Forall clean kr.2) rs
  ∧ ∀ k v, (k, v) ∈ es ->
      ∃ r, encodeURIComponent (ToString v) = Normal r ∧ (k, r) ∈ rs.
Proof.
  revert rs. induction es as [|[k v] es IH]; intros rs.
  - intros [= <-]. split_and!; [done|constructor|]. intros k v Hin. inversion Hin.
  - cbn [encode_entries].
    destruct (encodeURIComponent (ToString v)) as [r|] eqn:Hv; [|done].
    destruct (encode_entries es) as [rs'|]; [|done].
    intros [= <-]. destruct (IH rs' eq_refl) as (Hk & Hc & Hin).
    split_and!.
    + cbn. by rewrite Hk.
    + constructor; [by eapply encodeURIComponent_clean|done].
    + intros k' v' [[= -> ->]|Hin']%elem_of_cons.
      * exists r. split; [done|]. by left.
      * destruct (Hin _ _ Hin') as (r' & ? & ?). exists r'. split; [done|]. by right.
Qed.

Lemma foldl_replace_fill segs rs :
  Forall well_formed segs ->
  Forall (fun kr => (rbrace ∉ kr.1) ∧ Forall clean kr.2) rs ->
  foldl replace_entry (render segs) rs = render (foldl fill_entry segs rs).
Proof.
  intros Hwf Hrs. revert segs Hwf.
  induction Hrs as [|[k r] rs [Hk Hr] _ IH]; intros segs Hwf; [done|].
  cbn [foldl]. unfold replace_entry at 2, fill_entry at 2. cbn [fst snd] in *.
  rewrite replace_literal by by apply clean_no_dollar.
  rewrite render_fill1 by done.
  apply IH. apply fill1_well_formed; [by apply clean_no_lbrace|done].
Qed.

Lemma fill_spec_fill1 (m : gmap ustring ustring) k r segs :
  m !! k = None ->
  fill_spec m (fill1 k r segs) = fill_spec (<[k:=r]> m) segs.
Proof.
  revert m. induction segs as [|[t|t] segs IH]; intros m Hm; cbn [fill1 fill_spec].
  - done.
  - by rewrite IH.
  - destruct (decide (t = k)) as [->|Hne].
    + rewrite lookup_insert_eq. cbn [fill_spec].
      by rewrite delete_insert_id.
    + rewrite lookup_insert_ne by done. cbn [fill_spec].
      destruct (m !! t) eqn:Ht.
      * rewrite IH by (by rewrite lookup_delete_ne).
        by rewrite delete_insert_ne.
      * by rewrite IH.
Qed.

Lemma foldl_fill_spec rs segs :
  NoDup rs.*1 ->
  foldl fill_entry segs rs = fill_spec (list_to_map rs) segs.
Proof.
  revert segs. induction rs as [|[k r] rs IH]; intros segs Hnd.
  - cbn. induction segs as [|[t|t] segs IHs]; cbn [fill_spec]; [done|by f_equal|].
    rewrite lookup_empty. by f_equal.
  - cbn in Hnd. apply NoDup_cons in Hnd as [Hk Hnd].
    cbn [foldl]. rewrite IH by done. unfold fill_entry. cbn [fst snd].
    rewrite fill_spec_fill1 by by apply not_elem_of_list_to_map_1.
    done.
Qed.

Lemma fillPath_template segs (M : entries) :
  Forall well_formed segs -> NoDup M.*1 -> Forall (fun k => rbrace ∉ k) M.*1 ->
  fillPath (render segs) (Some M)
  = rs ← encode_entries M; Normal (render (fill_spec (list_to_map rs) segs)).
Proof.
  intros Hwf Hnd Hk. unfold fillPath. change (default [] (Some M)) with M.
  rewrite fillPath_loop_encode.
  destruct (encode_entries M) as [rs|e] eqn:Hrs; cbn [mbind completion_bind]; [|done].
  f_equal.
  apply encode_entries_spec in Hrs as (Hkeys & Hclean & _).
  rewrite foldl_replace_fill.
  - by rewrite foldl_fill_spec by by rewrite Hkeys.
  - done.
  - rewrite <- Hkeys in Hk. rewrite Forall_fmap in Hk.
    rewrite Forall_forall in *. intros kr Hin. split; [by apply Hk|by apply Hclean].
Qed.

Lemma same_entries_refl c : same_entries c c.
Proof. destruct c; unfold same_entries; reflexivity. Qed.

Lemma same_entries_trans c1 c2 c3 :
  same_entries c1 c2 -> same_entries c2 c3 -> same_entries c1 c3.
Proof.
  unfold same_entries. destruct c1, c2, c3; try done; [apply perm_trans|congruence].
Qed.

Lemma same_entries_cons k v c c' :
  same_entries c c' ->
  same_entries
    (r ← encodeURIComponent (ToString v); rs ← c; Normal ((k, r) :: rs))
    (r ← encodeURIComponent (ToString v); rs ← c'; Normal ((k, r) :: rs)).
Proof.
  destruct (encodeURIComponent (ToString v)); [|done].
  unfold same_entries. destruct c, c'; cbn [mbind completion_bind]; try done.
  by constructor.
Qed.

Lemma encode_entries_perm (M M' : entries) :
  M ≡ₚ M' -> same_entries (encode_entries M) (encode_entries M').
Proof.
  induction 1 as [|[k v] M M' _ IH|[k v] [k' v'] M|M1 M2 M3 _ IH1 _ IH2].
  - apply same_entries_refl.
  - cbn [encode_entries]. by apply same_entries_cons.
  - cbn [encode_entries].
    destruct (encodeURIComponent (ToString v)) as [r|e] eqn:Hv;
      destruct (encodeURIComponent (ToString v')) as [r'|e'] eqn:Hv';
      cbn [mbind completion_bind].
    + destruct (encode_entries M); cbn [mbind completion_bind same_entries];
        [apply perm_swap|done].
    + destruct (encode_entries M) as [|e] eqn:HM;
        cbn [mbind completion_bind same_entries]; [done|].
      apply encode_entries_error in HM. apply encodeURIComponent_error in Hv'.
      congruence.
    + destruct (encode_entries M) as [|e'] eqn:HM;
        cbn [mbind completion_bind same_entries]; [done|].
      apply encode_entries_error in HM. apply encodeURIComponent_error in Hv.
      congruence.
    + apply encodeURIComponent_error in Hv, Hv'. cbn. congruence.
  - by eapply same_entries_trans.
Qed.

(** ** Every placeholder filled *)

Lemma scan_no_lbrace s : lbrace ∉ s -> scan None s = [].
Proof.
  induction s as [|c s IH]; [done|].
  intros [Hc Hs]%not_elem_of_cons. cbn [scan].
  assert ((c =? lbrace) = false) as -> by (apply Z.eqb_neq; congruence).
  destruct (c =? rbrace); by apply IH.
Qed.

Lemma fill_spec_substitute (m m' : gmap ustring ustring) segs :
  NoDup (params segs) ->
  (∀ name, name ∈ params segs -> m !! name = m' !! name ∧ is_Some (m' !! name)) ->
  render (fill_spec m segs) = substitute m' segs.
Proof.
  revert m. unfold render, substitute.
  induction segs as [|[t|t] segs IH]; intros m Hnd Hm;
    cbn [fill_spec List.map List.concat params omap list_omap] in *.
  - done.
  - by rewrite (IH m).
  - apply NoDup_cons in Hnd as [Ht Hnd].
    destruct (Hm t) as (Heq & r & Hr); [by left|].
    rewrite Heq, Hr. cbn [List.map List.concat render_segment default from_option id].
    f_equal. apply IH; [done|].
    intros name Hin. destruct (Hm name) as (Heq' & Hsome); [by right|].
    split; [|done]. rewrite lookup_delete_ne; [done|]. by intros ->.
Qed.

Lemma substitute_no_lbrace (m : gmap ustring ustring) segs :
  Forall well_formed segs ->
  (∀ name, name ∈ params segs -> ∃ r, m !! name = Some r ∧ lbrace ∉ r) ->
  lbrace ∉ substitute m segs.
Proof.
  unfold substitute. intros Hwf.
  induction Hwf as [|[t|t] segs Hseg _ IH]; intros Hm;
    cbn [List.map List.concat params omap list_omap] in *.
  - apply not_elem_of_nil.
  - rewrite elem_of_app. intros [?|?]; [by apply Hseg|by apply IH].
  - destruct (Hm t) as (r & Hr & Hclean); [by left|].
    rewrite Hr. cbn [default from_option id].
    rewrite elem_of_app. intros [?|?]; [done|].
    apply IH; [|done]. intros name Hin. apply Hm. by right.
Qed.

Lemma encoded_lookup (M : entries) rs k v :
  encode_entries M = Normal rs -> NoDup M.*1 -> (k, v) ∈ M ->
  ∃ r, encodeURIComponent (ToString v) = Normal r
       ∧ (list_to_map rs : gmap ustring ustring) !! k = Some r
       ∧ Forall clean r.
Proof.
  intros Hrs Hnd Hin.
  destruct (encode_entries_spec _ _ Hrs) as (Hkeys & _ & Hall).
  destruct (Hall _ _ Hin) as (r & Hr & Hin').
  exists r. split_and!; [done| |by eapply encodeURIComponent_clean].
  apply elem_of_list_to_map_1; [by rewrite Hkeys|done].
Qed.

(** ** Values that are not strings *)

Lemma encode_unescaped s :
  Forall (fun c => unescaped c = true) s -> encodeURIComponent s = Normal s.
Proof.
  induction 1 as [|c s Hc _ IH]; [done|].
  cbn [encodeURIComponent]. by rewrite Hc, IH.
Qed.

(** * The path template resolver *)

(** The two examples of the specification. *)
Example fillPath_pet :
  fillPath (js "/pet/{petId}") (Some [(js "petId", VString (js "1"))])
  = Normal (js "/pet/1").
Proof. by vm_compute. Qed.

Example fillPath_pet_upload :
  fillPath (js "/pet/{petId}/uploadMultiple") (Some [(js "petId", VString (js "1"))])
  = Normal (js "/pet/1/uploadMultiple").
Proof. by vm_compute. Qed.

Example ToString_numbers :
  ToString (VNumber 0) = js "0" ∧ ToString (VNumber (-12)) = js "-12"
  ∧ ToString (VNumber 1024) = js "1024".
Proof. by vm_compute. Qed.

(** C7, as amended.  On a template whose placeholders do not nest, and for a
    record of parameters none of whose keys holds a closing brace, [fillPath]
    replaces the first placeholder of every key by the percent-encoded string
    form of the value of the key and leaves every other placeholder as it
    is (a value that cannot be encoded throws a URIError); the result is the
    same in whatever order the keys of the record are walked. *)
Theorem fillPath_first_placeholders segs (M M' : entries) :
  Forall well_formed segs ->
  NoDup M.*1 ->
  Forall (fun k => rbrace ∉ k) M.*1 ->
  M ≡ₚ M' ->
  fillPath (render segs) (Some M)
  = (rs ← encode_entries M; Normal (render (fill_spec (list_to_map rs) segs)))
  ∧ fillPath (render segs) (Some M') = fillPath (render segs) (Some M).
Proof.
  intros Hwf Hnd Hk Hperm.
  split; [by apply fillPath_template|].
  rewrite !fillPath_template; try done.
  - pose proof (encode_entries_perm _ _ Hperm) as Hsame.
    destruct (encode_entries M) as [rs|e] eqn:Hrs;
      destruct (encode_entries M') as [rs'|e'] eqn:Hrs';
      cbn [same_entries mbind completion_bind] in *; try done; [|congruence].
    apply encode_entries_spec in Hrs' as (Hkeys & _).
    rewrite (list_to_map_proper rs' rs); [done| |done].
    rewrite Hkeys. by rewrite <- Hperm.
  - by rewrite <- Hperm.
  - by rewrite <- Hperm.
Qed.

Lemma fillPath_first_placeholders_witness :
  fillPath (js "/pet/{petId}/photo/{photoId}/{petId}/{size}")
    (Some [(js "photoId", VNumber 7); (js "petId", VString (js "a b"))])
  = Normal (js "/pet/a%20b/photo/7/{petId}/{size}")
  ∧ fillPath (js "/pet/{petId}/photo/{photoId}/{petId}/{size}")
      (Some [(js "petId", VString (js "a b")); (js "photoId", VNumber 7)])
    = Normal (js "/pet/a%20b/photo/7/{petId}/{size}").
Proof.
  pose (segs := [Text (js "/pet/"); Param (js "petId"); Text (js "/photo/");
                 Param (js "photoId"); Text (js "/"); Param (js "petId");
                 Text (js "/"); Param (js "size")]).
  pose (M := [(js "petId", VString (js "a b")); (js "photoId", VNumber 7)]).
  pose (M' := [(js "photoId", VNumber 7); (js "petId", VString (js "a b"))]).
  assert (Forall well_formed segs) as Hwf
    by (repeat constructor; compute_done).
  assert (NoDup M.*1) as Hnd by compute_done.
  assert (Forall (fun k => rbrace ∉ k) M.*1) as Hk by compute_done.
  assert (M ≡ₚ M') as Hperm by apply perm_swap.
  destruct (fillPath_first_placeholders segs M M' Hwf Hnd Hk Hperm) as [H1 H2].
  split.
  - etrans; [exact H2|]. etrans; [exact H1|]. by vm_compute.
  - etrans; [exact H1|]. by vm_compute.
Defined.

(** The claim C7 as stated fails when placeholders nest: the value filled in
    for one key completes the placeholder of another, so the order in which
    the keys are walked shows in the result. *)
Lemma fillPath_order_dependent :
  [(js "a", VString (js "b")); (js "b", VString (js "x"))]
    ≡ₚ [(js "b", VString (js "x")); (js "a", VString (js "b"))]
  ∧ fillPath (js "{{a}}")
      (Some [(js "a", VString (js "b")); (js "b", VString (js "x"))])
    = Normal (js "x")
  ∧ fillPath (js "{{a}}")
      (Some [(js "b", VString (js "x")); (js "a", VString (js "b"))])
    = Normal (js "{b}")
  ∧ fillPath (js "{{a}}")
      (Some [(js "a", VString (js "b")); (js "b", VString (js "x"))])
    ≠ fillPath (js "{{a}}")
        (Some [(js "b", VString (js "x")); (js "a", VString (js "b"))]).
Proof.
  split_and!.
  - apply perm_swap.
  - by vm_compute.
  - by vm_compute.
  - by vm_compute.
Qed.

(** C8, as amended.  On a template whose placeholders do not nest and are
    pairwise distinct, each with a key in the record, the keys holding no
    closing brace and the values being encodable: the result of [fillPath]
    is the template with every placeholder replaced by the percent-encoded
    string form of the value of its key, and no placeholder and no opening
    brace is left in it. *)
Theorem fillPath_all_placeholders segs (M : entries) rs :
  Forall well_formed segs ->
  NoDup (params segs) ->
  params segs ⊆ M.*1 ->
  NoDup M.*1 ->
  Forall (fun k => rbrace ∉ k) M.*1 ->
  encode_entries M = Normal rs ->
  fillPath (render segs) (Some M) = Normal (substitute (list_to_map rs) segs)
  ∧ placeholders (substitute (list_to_map rs) segs) = []
  ∧ (lbrace ∉ substitute (list_to_map rs) segs)
  ∧ Forall (fun name => ∃ v r, (name, v) ∈ M
                               ∧ encodeURIComponent (ToString v) = Normal r
                               ∧ (list_to_map rs : gmap ustring ustring) !! name = Some r)
           (params segs).
Proof.
  intros Hwf Hnd Hsub HndM Hk Hrs.
  assert (∀ name, name ∈ params segs ->
            ∃ v r, (name, v) ∈ M ∧ encodeURIComponent (ToString v) = Normal r
                   ∧ (list_to_map rs : gmap ustring ustring) !! name = Some r
                   ∧ Forall clean r) as Hall.
  { intros name Hin. apply Hsub in Hin.
    apply list_elem_of_fmap in Hin as ([k v] & -> & Hin).
    destruct (encoded_lookup _ _ _ _ Hrs HndM Hin) as (r & ? & ? & ?).
    by exists v, r. }
  assert (lbrace ∉ substitute (list_to_map rs) segs) as Hno.
  { apply substitute_no_lbrace; [done|].
    intros name Hin. destruct (Hall _ Hin) as (v & r & _ & _ & Hr & Hc).
    exists r. split; [done|by apply clean_no_lbrace]. }
  split_and!.
  - rewrite fillPath_template by done. rewrite Hrs. cbn [mbind completion_bind].
    f_equal. apply fill_spec_substitute; [done|].
    intros name Hin. destruct (Hall _ Hin) as (v & r & _ & _ & Hr & _).
    split; [done|by exists r].
  - by apply scan_no_lbrace.
  - done.
  - rewrite Forall_forall. intros name Hin.
    destruct (Hall _ Hin) as (v & r & ? & ? & ? & _). by exists v, r.
Qed.

Lemma fillPath_all_placeholders_witness :
  fillPath (js "/pet/{petId}/photo/{photoId}")
    (Some [(js "petId", VString (js "a/b")); (js "photoId", VNumber 7)])
  = Normal (js "/pet/a%2Fb/photo/7")
  ∧ placeholders (js "/pet/a%2Fb/photo/7") = [].
Proof.
  pose (segs := [Text (js "/pet/"); Param (js "petId"); Text (js "/photo/");
                 Param (js "photoId")]).
  pose (M := [(js "petId", VString (js "a/b")); (js "photoId", VNumber 7)]).
  pose (rs := [(js "petId", js "a%2Fb"); (js "photoId", js "7")]).
  assert (Forall well_formed segs) as Hwf
    by (repeat constructor; compute_done).
  assert (NoDup (params segs)) as Hnd by compute_done.
  assert (params segs ⊆ M.*1) as Hsub by compute_done.
  assert (NoDup M.*1) as HndM by compute_done.
  assert (Forall (fun k => rbrace ∉ k) M.*1) as Hk by compute_done.
  assert (encode_entries M = Normal rs) as Hrs by (by vm_compute).
  destruct (fillPath_all_placeholders segs M rs Hwf Hnd Hsub HndM Hk Hrs)
    as (H1 & H2 & _).
  split.
  - etrans; [exact H1|]. by vm_compute.
  - etrans; [|exact H2]. by vm_compute.
Defined.

(** The claim C8 as stated fails when a placeholder occurs twice: only its
    first occurrence is replaced. *)
Lemma fillPath_repeated_placeholder :
  Forall (fun name => name ∈ [js "a"]) (placeholders (js "/{a}/{a}"))
  ∧ fillPath (js "/{a}/{a}") (Some [(js "a", VString (js "1"))])
    = Normal (js "/1/{a}")
  ∧ placeholders (js "/1/{a}") = [js "a"].
Proof.
  split_and!.
  - compute_done.
  - by vm_compute.
  - by vm_compute.
Qed.

(** C9.  With an empty record, and with no record at all, [fillPath] returns
    the template as it is; [fillPath] is a function of its two arguments:
    a call has one result, a value or an error, and nothing else. *)
Theorem fillPath_empty_params (T : ustring) :
  fillPath T (Some []) = Normal T
  ∧ fillPath T None = Normal T
  ∧ ∀ M, ∃ c, fillPath T M = c ∧ ∀ c', fillPath T M = c' -> c' = c.
Proof.
  split_and!; [done|done|]. intros M. exists (fillPath T M). split; [done|].
  by intros c' <-.
Qed.

(** * The hook dispatch chain *)

Section dispatch.
Context {Ctx Action : Type}.
Implicit Types (c : task Action) (tr : list (event Action)).

Lemma await_advance (t : task Action) :
  await t = ((advance t).1 ++ (await (advance t).2).1, (await (advance t).2).2).
Proof.
  induction t as [| | | |a k IH|k IH]; try done.
  - cbn [await advance]. destruct (advance k) as [tr r].
    destruct (await k) as [tr' o]. cbn [fst snd] in *.
    by injection IH as -> ->.
  - cbn [advance fst snd app]. by destruct (await (Suspend k)).
Qed.

Lemma project_tag (i : tier) (l : list Action) : project i (tag i l) = l.
Proof.
  unfold project, tag. induction l as [|a l IH]; [done|].
  cbn [List.map omap list_omap fst snd]. rewrite decide_True by done.
  by rewrite IH.
Qed.

Lemma project_tag_ne (i j : tier) (l : list Action) :
  i ≠ j -> project i (tag j l) = [].
Proof.
  intros Hne. unfold project, tag. induction l as [|a l IH]; [done|].
  cbn [List.map omap list_omap fst snd]. by rewrite decide_False by done.
Qed.

Lemma project_app (i : tier) tr tr' :
  project i (tr ++ tr') = project i tr ++ project i tr'.
Proof. apply omap_app. Qed.

Lemma and_then_fulfilled (p q : run Action) tr :
  and_then p q = (tr, Fulfilled) ->
  ∃ t1 t2, p = (t1, Fulfilled) ∧ q = (t2, Fulfilled) ∧ tr = t1 ++ t2.
Proof.
  destruct p as [t1 [|e|]], q as [t2 o]; cbn [and_then]; try done.
  intros [= <- ->]. by exists t1, t2.
Qed.

Lemma await_as_fulfilled (i : tier) c tr :
  await_as i c = (tr, Fulfilled) -> ∃ a, await c = (a, Fulfilled) ∧ tr = tag i a.
Proof.
  unfold await_as. destruct (await c) as [a o]. intros [= <- ->]. by exists a.
Qed.

(** When the joint promise is fulfilled, every call of the pool has run to
    its end, and its effects are those the trace has for its index. *)
Lemma promise_all_fulfilled sched (ps : list (task Action)) tr :
  promise_all sched ps = (tr, Fulfilled) ->
  ∀ i p, ps !! i = Some p -> await p = (project (Local i) tr, Fulfilled).
Proof.
  revert ps tr. induction sched as [|j sched IH]; intros ps tr;
    cbn [promise_all]; destruct (first_rejection ps); try done;
    destruct (forallb fulfilled ps) eqn:Hall.
  1,3: intros [= <-] i p Hp;
       rewrite forallb_forall in Hall;
       apply list_elem_of_lookup_2, list_elem_of_In, Hall in Hp;
       by destruct p.
  - done.
  - destruct (ps !! j) as [[| | | | |k]|] eqn:Hj; try by apply IH.
    destruct (advance k) as [tr0 r] eqn:Hk.
    destruct (promise_all sched (<[j:=r]> ps)) as [tr' o] eqn:Hrun.
    intros [= <- ->] i p Hp.
    specialize (IH _ _ Hrun). rewrite project_app.
    destruct (decide (i = j)) as [->|Hne].
    + rewrite Hj in Hp. injection Hp as <-.
      rewrite project_tag. cbn [await]. rewrite await_advance, Hk. cbn [fst snd].
      assert (<[j:=r]> ps !! j = Some r) as Hr
        by (apply list_lookup_insert_eq; by eapply lookup_lt_Some).
      by rewrite (IH _ _ Hr).
    + rewrite project_tag_ne by congruence.
      apply IH. by rewrite list_lookup_insert_ne.
Qed.

Lemma call_each_normal i (calls ps : list (task Action)) tr :
  call_each i calls = (tr, Normal ps) ->
  tr = List.concat (imap (fun j c => tag (Local (i + j)) (advance c).1) calls)
  ∧ ps = List.map (fun c => (advance c).2) calls.
Proof.
  revert i ps tr. induction calls as [|c calls IH]; intros i ps tr.
  - by intros [= <- <-].
  - cbn [call_each imap List.map List.concat].
    destruct (advance c) as [tr0 r] eqn:Hc. cbn [fst snd].
    destruct (call_each (S i) calls) as [tr' rs] eqn:Hrest.
    destruct rs as [rs|e].
    + destruct (IH _ _ _ Hrest) as [-> ->].
      rewrite Nat.add_0_r.
      assert (imap ((fun j c0 => tag (Local (i + j)) (advance c0).1) ∘ S) calls
              = imap (fun j c0 => tag (Local (S i + j)) (advance c0).1) calls) as ->.
      { apply imap_ext. intros j c0 _. cbn. do 2 f_equal. lia. }
      by destruct r; intros [= <- <-].
    + by destruct r.
Qed.
End dispatch.

Section chain.
Context {Ctx Action : Type}.
Implicit Types (hooks : Hookable Ctx Action) (baseOpts : FetchOptions Ctx Action).

Lemma project_started_lt n m (calls : list (task Action)) :
  (m < n)%nat ->
  project (Local m)
    (List.concat (imap (fun j c => tag (Local (n + j)) (advance c).1) calls)) = [].
Proof.
  revert n. induction calls as [|c calls IH]; intros n Hlt; [done|].
  cbn [imap List.concat]. rewrite project_app.
  rewrite project_tag_ne by (intros [= ?]; lia). cbn [app].
  rewrite (imap_ext _ (fun j c0 => tag (Local (S n + j)) (advance c0).1)).
  - apply IH. lia.
  - intros j c0 _. cbn. do 2 f_equal. lia.
Qed.

Lemma project_started n i (calls : list (task Action)) c :
  calls !! i = Some c ->
  project (Local (n + i))
    (List.concat (imap (fun j c => tag (Local (n + j)) (advance c).1) calls))
  = (advance c).1.
Proof.
  revert n i. induction calls as [|c0 calls IH]; intros n i Hi; [done|].
  cbn [imap List.concat]. rewrite project_app.
  rewrite (imap_ext _ (fun j c1 => tag (Local (S n + j)) (advance c1).1));
    [|intros j c1 _; cbn; do 2 f_equal; lia].
  destruct i as [|i]; cbn in Hi.
  - injection Hi as ->. rewrite project_tag.
    rewrite Nat.add_0_r, project_started_lt by lia. apply app_nil_r.
  - rewrite project_tag_ne by (intros [= ?]; lia). cbn [app].
    replace (n + S i)%nat with (S n + i)%nat by lia. by apply IH.
Qed.

(** C1.  For each of the four events, when the callback made by
    [createHook] is fulfilled, what ran is: the call of the global channel
    [openFetch:<event>] to its end, then (only with a client name that is
    not empty) the call of the channel [openFetch:<event>:<clientName>] to
    its end, then the local hooks of the merged options.  When these are a
    list, every entry is started, in the order of the list, before any of
    them is resumed, and every entry has run to its end and is fulfilled
    by the time the callback is. *)
Theorem createHook_order hooks baseOpts (hook : FetchHook)
    (hookIdentifier : option ustring) (sched : list nat) (ctx : Ctx)
    (tr : list (event Action)) :
  createHook hooks baseOpts hook hookIdentifier sched ctx = (tr, Fulfilled) ->
  ∃ tg tc tl,
    tr = tag Global tg ++ tag PerClient tc ++ tl
    ∧ await (callHook hooks (global_channel hook) ctx) = (tg, Fulfilled)
    ∧ match hookIdentifier with
      | Some (c :: id) =>
          await (callHook hooks (client_channel hook (c :: id)) ctx) = (tc, Fulfilled)
      | _ => tc = []
      end
    ∧ match baseOpts !! hook_name hook with
      | Some (OHooks hs) =>
          let calls := List.map (fun h => h ctx) hs in
          (∃ rest, tl = started calls ++ rest)
          ∧ ∀ i c, calls !! i = Some c ->
              await c = (project (Local i) tl, Fulfilled)
      | Some (OHook h) =>
          await (h ctx) = (project (Local 0) tl, Fulfilled)
          ∧ tl = tag (Local 0) (project (Local 0) tl)
      | _ => tl = []
      end.
Proof.
  unfold createHook. intros H.
  apply and_then_fulfilled in H as (t1 & t23 & Hg & H & ->).
  apply and_then_fulfilled in H as (t2 & tl & Hc & Hl & ->).
  apply await_as_fulfilled in Hg as (tg & Hg & ->).
  assert (∃ tc, t2 = tag PerClient tc
                ∧ match hookIdentifier with
                  | Some (c :: id) =>
                      await (callHook hooks (client_channel hook (c :: id)) ctx)
                      = (tc, Fulfilled)
                  | _ => tc = []
                  end) as (tc & -> & Hc').
  { destruct hookIdentifier as [[|c id]|].
    - exists []. by injection Hc as <-.
    - apply await_as_fulfilled in Hc as (tc & ? & ->). by exists tc.
    - exists []. by injection Hc as <-. }
  exists tg, tc, tl. split_and!; [done|done|done|].
  destruct (baseOpts !! hook_name hook) as [[v|r|h|hs]|].
  - destruct (uncallable v); [done|]. by injection Hl as <-.
  - done.
  - apply await_as_fulfilled in Hl as (a & Ha & ->).
    by rewrite project_tag.
  - cbv zeta.
    destruct (call_each 0 (List.map (fun h => h ctx) hs)) as [ts [ps|e]] eqn:Hstart;
      [|done].
    apply call_each_normal in Hstart as [-> ->].
    apply and_then_fulfilled in Hl as (? & rest & [= <-] & Hrun & ->).
    split; [by exists rest|].
    intros i c Hi. rewrite await_advance, project_app.
    pose proof (project_started 0 i _ c Hi) as Hs.
    cbn [Nat.add] in Hs. rewrite Hs.
    assert (List.map (fun c => (advance c).2) (List.map (fun h => h ctx) hs) !! i
            = Some (advance c).2) as Hp.
    { change (List.map ?f ?l) with (f <$> l) at 1. by rewrite list_lookup_fmap, Hi. }
    by rewrite (promise_all_fulfilled _ _ _ Hrun _ _ Hp).
  - by injection Hl as <-.
Qed.

(** C5.  For each of the four events, when a hook of the global tier
    fails, or the global tier completes and a hook of the tier of the client
    fails, the callback is rejected with that very reason, no local hook
    has run, and after a failure of the global tier no hook of the tier of
    the client has run either. *)
Theorem createHook_failure_aborts hooks baseOpts (hook : FetchHook)
    (hookIdentifier : option ustring) (sched : list nat) (ctx : Ctx)
    (tr : list (event Action)) (e : exn) :
  earlier_tier_fails hooks hook hookIdentifier ctx tr e ->
  createHook hooks baseOpts hook hookIdentifier sched ctx = (tr, Rejected e)
  ∧ (∀ i, project (Local i) tr = [])
  ∧ match (await (callHook hooks (global_channel hook) ctx)).2 with
    | Rejected _ => project PerClient tr = []
    | _ => True
    end.
Proof.
  intros [(tg & Hg & ->)|(tg & tc & c & id & -> & Hg & Hc & ->)];
    unfold createHook, await_as;
    change (js "openFetch:" ++ hook_name hook) with (global_channel hook);
    rewrite Hg; cbn [and_then snd].
  - split_and!; [done| |]; intros; by apply project_tag_ne.
  - change (js "openFetch:" ++ hook_name hook ++ js ":" ++ c :: id)
      with (client_channel hook (c :: id)).
    rewrite Hc. cbn [and_then]. split_and!; [done| |done].
    intros i. rewrite project_app, !project_tag_ne by done. done.
Qed.
End chain.

(** ** The chain settles when its hooks do *)

Section liveness.
Context {Ctx Action : Type}.
Implicit Types (hooks : Hookable Ctx Action) (baseOpts : FetchOptions Ctx Action).

Lemma advance_at_rest (t : task Action) : at_rest (advance t).2 = true.
Proof.
  induction t as [| | | |a k IH|k IH]; try done.
  cbn [advance]. by destruct (advance k).
Qed.

Lemma advance_suspensions (t : task Action) :
  suspensions (advance t).2 = suspensions t.
Proof.
  induction t as [| | | |a k IH|k IH]; try done.
  cbn [advance suspensions]. by destruct (advance k).
Qed.

Lemma advance_completes (t : task Action) : completes t -> completes (advance t).2.
Proof. unfold completes. by rewrite (await_advance t). Qed.

Lemma completes_no_rejection (ps : list (task Action)) :
  Forall completes ps -> first_rejection ps = None.
Proof.
  unfold first_rejection. induction 1 as [|p ps Hp _ IH]; [done|].
  cbn [omap list_omap]. by destruct p.
Qed.

Lemma sum_suspensions_insert (ps : list (task Action)) i p r :
  ps !! i = Some p ->
  (sum_list_with suspensions (<[i:=r]> ps) + suspensions p
   = sum_list_with suspensions ps + suspensions r)%nat.
Proof.
  revert i. induction ps as [|q ps IH]; intros [|i] Hi; try done; simpl in *.
  - injection Hi as ->. lia.
  - specialize (IH _ Hi). lia.
Qed.

(** A pool of calls that each complete is fulfilled under some order of
    resumption. *)
Lemma promise_all_completes (ps : list (task Action)) :
  Forall (fun p => at_rest p = true) ps -> Forall completes ps ->
  ∃ sched tr, promise_all sched ps = (tr, Fulfilled).
Proof.
  remember (sum_list_with suspensions ps) as n eqn:Hn.
  revert ps Hn. induction n as [n IH] using lt_wf_ind. intros ps Hn Hrest Hcompl.
  destruct (forallb fulfilled ps) eqn:Hall.
  { exists [], []. cbn [promise_all].
    by rewrite completes_no_rejection, Hall. }
  assert (∃ i p, ps !! i = Some p ∧ fulfilled p = false) as (i & p & Hi & Hp).
  { clear -Hall. induction ps as [|q ps IHps]; [done|].
    cbn [forallb] in Hall. destruct (fulfilled q) eqn:Hq.
    - destruct (IHps Hall) as (i & p & ? & ?). by exists (S i), p.
    - by exists 0%nat, q. }
  assert (∃ k, p = Suspend k) as [k ->].
  { rewrite Forall_forall in Hrest, Hcompl.
    apply list_elem_of_lookup_2 in Hi.
    specialize (Hrest _ Hi). specialize (Hcompl _ Hi).
    destruct p; try done. by eexists. }
  destruct (advance k) as [tr0 r] eqn:Hk.
  assert (completes r ∧ at_rest r = true ∧ suspensions r = suspensions k)
    as (Hr1 & Hr2 & Hr3).
  { replace r with (advance k).2 by by rewrite Hk.
    split_and!; [|apply advance_at_rest|apply advance_suspensions].
    apply advance_completes. rewrite Forall_forall in Hcompl.
    by apply (Hcompl (Suspend k)), list_elem_of_lookup_2 with i. }
  destruct (IH (sum_list_with suspensions (<[i:=r]> ps))) with (ps := <[i:=r]> ps)
    as (sched & tr & Hrun).
  - pose proof (sum_suspensions_insert ps i _ r Hi) as Hsum.
    cbn [suspensions] in Hsum. lia.
  - done.
  - apply Forall_insert; done.
  - apply Forall_insert; done.
  - exists (i :: sched), (tag (Local i) tr0 ++ tr). cbn [promise_all].
    by rewrite completes_no_rejection, Hall, Hi, Hk, Hrun.
Qed.

Lemma call_each_completes i (calls : list (task Action)) :
  Forall completes calls ->
  ∃ tr, call_each i calls = (tr, Normal (List.map (fun c => (advance c).2) calls)).
Proof.
  intros H. revert i. induction H as [|c calls Hc _ IH]; intros i; [by eexists|].
  cbn [call_each List.map]. apply advance_completes in Hc.
  destruct (advance c) as [tr0 r]. destruct (IH (S i)) as [tr' ->].
  cbn [snd] in *. destruct r; try done; by eexists.
Qed.

(** When the call of the global channel, the call of the channel of the
    client and every local hook complete, the callback is fulfilled under
    some order of resumption of the local hooks. *)
Lemma createHook_completes hooks baseOpts (hook : FetchHook)
    (hookIdentifier : option ustring) (ctx : Ctx) :
  completes (callHook hooks (global_channel hook) ctx) ->
  (∀ name, completes (callHook hooks (client_channel hook name) ctx)) ->
  match baseOpts !! hook_name hook with
  | Some (OHooks hs) => Forall (fun h => completes (h ctx)) hs
  | Some (OHook h) => completes (h ctx)
  | Some (OValue v) => uncallable v = false
  | Some (ORecord _) => False
  | None => True
  end ->
  ∃ sched tr, createHook hooks baseOpts hook hookIdentifier sched ctx = (tr, Fulfilled).
Proof.
  unfold completes, createHook, await_as. intros Hg Hc Hl.
  change (js "openFetch:" ++ hook_name hook) with (global_channel hook).
  destruct (await (callHook hooks (global_channel hook) ctx)) as [tg og].
  cbn [snd] in Hg. subst og. cbn [and_then].
  assert (∃ tc, match hookIdentifier with
                | Some (c :: id) =>
                    let '(tr, o) :=
                      await (callHook hooks
                               (js "openFetch:" ++ hook_name hook ++ js ":" ++ c :: id) ctx)
                    in (tag PerClient tr, o)
                | _ => skip
                end = (tc, Fulfilled)) as [tc ->].
  { destruct hookIdentifier as [[|c id]|]; try by eexists.
    specialize (Hc (c :: id)). unfold client_channel in Hc.
    destruct (await _) as [t o]. cbn [snd] in Hc. subst o. by eexists. }
  cbn [and_then].
  destruct (baseOpts !! hook_name hook) as [[v|r|h|hs]|].
  - rewrite Hl. exists [], (tag Global tg ++ tc ++ []). done.
  - done.
  - destruct (await (h ctx)) as [t o]. cbn [snd] in Hl. subst o.
    exists []. by eexists.
  - assert (Forall completes (List.map (fun h => h ctx) hs)) as Hcalls.
    { apply Forall_forall. intros c (h & -> & Hin)%list_elem_of_fmap.
      rewrite Forall_forall in Hl. by apply Hl. }
    destruct (call_each_completes 0 _ Hcalls) as [ts ->].
    destruct (promise_all_completes (List.map (fun c => (advance c).2)
                                       (List.map (fun h => h ctx) hs)))
      as (sched & tr & Hrun).
    + apply Forall_forall. intros p (c & -> & _)%list_elem_of_fmap.
      apply advance_at_rest.
    + apply Forall_forall. intros p (c & -> & Hin)%list_elem_of_fmap.
      rewrite Forall_forall in Hcalls. by apply advance_completes, Hcalls.
    + exists sched. rewrite Hrun. by eexists.
  - exists []. by eexists.
Qed.
End liveness.

(** A run of the chain for [onRequest] with the client [api], the two local
    hooks resumed last first. *)
Lemma createHook_order_witness :
  createHook example_registry example_options onRequest (Some (js "api"))
    [1%nat; 0%nat] ()
  = ([(Global, 1%nat); (Global, 2%nat); (PerClient, 3%nat);
      (Local 0, 10%nat); (Local 1, 20%nat); (Local 1, 21%nat); (Local 0, 11%nat)],
     Fulfilled)
  ∧ ∃ tg tc tl,
      [(Global, 1%nat); (Global, 2%nat); (PerClient, 3%nat);
       (Local 0, 10%nat); (Local 1, 20%nat); (Local 1, 21%nat); (Local 0, 11%nat)]
      = tag Global tg ++ tag PerClient tc ++ tl
      ∧ tg = [1%nat; 2%nat] ∧ tc = [3%nat].
Proof.
  assert (createHook example_registry example_options onRequest (Some (js "api"))
            [1%nat; 0%nat] ()
          = ([(Global, 1%nat); (Global, 2%nat); (PerClient, 3%nat);
              (Local 0, 10%nat); (Local 1, 20%nat); (Local 1, 21%nat);
              (Local 0, 11%nat)], Fulfilled)) as Hrun by (by vm_compute).
  split; [exact Hrun|].
  destruct (createHook_order example_registry example_options onRequest
              (Some (js "api")) [1%nat; 0%nat] () _ Hrun)
    as (tg & tc & tl & Htr & Hg & Hc & _).
  exists tg, tc, tl. split; [exact Htr|].
  vm_compute in Hg. vm_compute in Hc. split; congruence.
Defined.

(** The subscriber of the global channel throws: nothing else runs. *)
Lemma createHook_failure_aborts_witness :
  createHook failing_registry {[ js "onResponse" := OHook (fun _ => Do 10%nat Return) ]}
    onResponse (Some (js "api")) [] ()
  = ([(Global, 1%nat); (Global, 2%nat)], Rejected (Thrown (VString (js "boom")))).
Proof.
  assert (earlier_tier_fails failing_registry onResponse (Some (js "api")) ()
            [(Global, 1%nat); (Global, 2%nat)] (Thrown (VString (js "boom")))) as H.
  { left. exists [1%nat; 2%nat]. split; by vm_compute. }
  exact (proj1 (createHook_failure_aborts failing_registry _ onResponse
                  (Some (js "api")) [] () _ _ H)).
Defined.

(** * The client factory *)

Section factory.
Context {Ctx Action R : Type}.
Implicit Types (env : Runtime Ctx Action R) (options : BaseConfig Ctx Action)
  (localFetch : option (Fetch Ctx Action R)) (hooks : option (Hookable Ctx Action))
  (baseOpts eff : FetchOptions Ctx Action) (opts : TransportOptions Ctx Action).

Lemma hook_name_inj : Inj (=) (=) hook_name.
Proof. intros [] []; done. Qed.

Lemma getOpenFetchHooks_hook (h : Hookable Ctx Action) baseOpts ident hook :
  getOpenFetchHooks (Some h) baseOpts ident !! hook_name hook
  = Some (createHook h baseOpts hook ident).
Proof.
  unfold getOpenFetchHooks, openFetchHooks. cbn [foldl].
  destruct hook;
    repeat first [rewrite lookup_insert_eq; reflexivity
                 |rewrite lookup_insert_ne by (by intros ?%hook_name_inj)].
Qed.

Lemma getOpenFetchHooks_other (h : Hookable Ctx Action) baseOpts ident k :
  (∀ hook, k ≠ hook_name hook) ->
  getOpenFetchHooks (Some h) baseOpts ident !! k = None.
Proof.
  intros Hk. unfold getOpenFetchHooks, openFetchHooks. cbn [foldl].
  rewrite !lookup_insert_ne by (apply not_eq_sym, Hk). apply lookup_empty.
Qed.

Lemma overlay_lookup baseOpts (hs : gmap ustring (composed_hook Ctx Action)) k :
  overlay baseOpts hs !! k
  = match hs !! k with
    | Some h => Some (Composed h)
    | None => Given <$> baseOpts !! k
    end.
Proof.
  unfold overlay. rewrite lookup_union, !lookup_fmap.
  destruct (hs !! k), (baseOpts !! k); done.
Qed.
End factory.

Lemma hook_of_name_hook hook : hook_of_name (hook_name hook) = Some hook.
Proof. by destruct hook. Qed.

Lemma hook_of_name_None k : hook_of_name k = None -> ∀ hook, k ≠ hook_name hook.
Proof.
  unfold hook_of_name. intros H hook ->.
  repeat (case_decide; [done|]). by destruct hook.
Qed.

Lemma hook_of_name_Some k hook : hook_of_name k = Some hook -> k = hook_name hook.
Proof.
  unfold hook_of_name. intros H.
  repeat (case_decide; [by injection H as <-|]). done.
Qed.

Section client.
Context {Ctx Action R : Type}.
Implicit Types (env : Runtime Ctx Action R) (options : BaseConfig Ctx Action)
  (localFetch : option (Fetch Ctx Action R)) (hooks : option (Hookable Ctx Action))
  (callOptions : option (FetchOptions Ctx Action)) (opts : TransportOptions Ctx Action).

Lemma transport_options_lookup options ident hooks callOptions k :
  transport_options options ident hooks callOptions !! k
  = match hooks, hook_of_name k with
    | Some h, Some hook =>
        Some (Composed (createHook h (effectiveOptions options callOptions) hook ident))
    | _, _ => Given <$> effectiveOptions options callOptions !! k
    end.
Proof.
  unfold transport_options. cbv zeta. rewrite overlay_lookup.
  destruct hooks as [h|]; [|cbn [getOpenFetchHooks]; by rewrite lookup_empty].
  destruct (hook_of_name k) as [hook|] eqn:Hk.
  - apply hook_of_name_Some in Hk as ->. by rewrite getOpenFetchHooks_hook.
  - by rewrite getOpenFetchHooks_other by by apply hook_of_name_None.
Qed.

(** C2.  With a function as base configuration the effective options are
    what the function returns for the options of the call, and the client
    behaves as with that value as static configuration and nothing merged
    into it; with static options the effective options have, at every key,
    the value of the call when the call has the key and the value of the
    base otherwise; these effective options are what the hooks are made
    from and what the transport is called with. *)
Theorem createOpenFetch_effective_options env localFetch ident hooks url callOptions :
  (∀ f, effectiveOptions (Dynamic f) callOptions = f callOptions
        ∧ createOpenFetch env (Dynamic f) localFetch ident hooks url callOptions
          = createOpenFetch env (Static (f callOptions)) localFetch ident hooks url None)
  ∧ (∀ o k, effectiveOptions (Static o) callOptions !! k
            = match callOptions ≫= (fun c => c !! k) with
              | Some v => Some v
              | None => o !! k
              end)
  ∧ (∀ options,
       createOpenFetch env options localFetch ident hooks url callOptions
       = let eff := effectiveOptions options callOptions in
         let opts := overlay eff (getOpenFetchHooks hooks eff ident) in
         resolved ← fillPath url (path_of opts);
         Normal (getFetch env url opts localFetch resolved opts)).
Proof.
  split_and!.
  - intros f. split; [done|].
    unfold createOpenFetch, effectiveOptions. cbn [default from_option id].
    by rewrite (left_id_L ∅ (∪)).
  - intros o k. unfold effectiveOptions. rewrite lookup_union.
    destruct callOptions as [c|]; cbn [default from_option id mbind option_bind].
    + by destruct (c !! k), (o !! k).
    + rewrite lookup_empty. by destruct (o !! k).
  - done.
Qed.

Lemma base_url_allows_local_spec (o : option (topt Ctx Action)) :
  base_url_allows_local o <-> falsy o || index0_is_slash o = true.
Proof.
  unfold base_url_allows_local, falsy, index0_is_slash, root_relative.
  destruct o as [[[v|r|h|hs]|h]|]; cbn [negb orb]; try done.
  - destruct v as [| |[|]|[neg n e| |neg]|[|c s]|[|x l]]; cbn [truthy negb orb]; try done.
    + destruct (n =? 0)%N eqn:Hn; cbn [negb];
        [apply N.eqb_eq in Hn|apply N.eqb_neq in Hn]; done.
    + split; [done|by left].
    + destruct (c =? slash) eqn:Hc;
        [apply Z.eqb_eq in Hc as ->|apply Z.eqb_neq in Hc].
      * split; [done|]. intros _. right. by eexists.
      * split; [|done]. intros [[=]|[s' [= ? _]]]. congruence.
    + split; [by intros [? [=]]|done].
    + destruct x as [| | | |[|c [|d s]]|]; try (split; [by intros [? [=]]|done]).
      destruct (c =? slash) eqn:Hc;
        [apply Z.eqb_eq in Hc as ->|apply Z.eqb_neq in Hc].
      * split; [done|]. intros _. by eexists.
      * split; [|done]. intros [l' [= ? _]]. congruence.
  - destruct (assoc (js "0") r) as [[| | | |[|c [|d s]]|]|]; try (split; by intros [=]).
    destruct (c =? slash) eqn:Hc;
      [apply Z.eqb_eq in Hc as ->|apply Z.eqb_neq in Hc]; [done|].
    split; [|done]. intros [= ?]. congruence.
Qed.

(** C3, as amended.  For every call, [getFetch] returns the local transport
    when the build is a server build, a local transport was given, the URL
    starts with a slash, and the base URL of the options is absent (missing
    or undefined), empty, or starts with a slash; in every other case it
    returns the global transport.  (A [baseURL] that is not a string is
    read as [base_url_allows_local] says.) *)
Theorem getFetch_selection env url opts localFetch :
  (local_conditions env localFetch url (opts !! js "baseURL")
   ∧ Some (getFetch env url opts localFetch) = localFetch)
  ∨ (¬ local_conditions env localFetch url (opts !! js "baseURL")
     ∧ getFetch env url opts localFetch = globalThis_fetch env).
Proof.
  unfold getFetch, local_conditions.
  destruct localFetch as [lf|]; [|right; split; [|done]; by intros (_ & [? [=]] & _)].
  destruct (import_meta_server env); [|right; split; [|done]; by intros ([=] & _)].
  destruct url as [|c url];
    [right; split; [|done]; by intros (_ & _ & [? [=]] & _)|].
  destruct (c =? slash) eqn:Hc;
    [apply Z.eqb_eq in Hc as ->
    |apply Z.eqb_neq in Hc; right; split; [|done];
     intros (_ & _ & [? [= ? _]] & _); congruence].
  cbn [andb].
  destruct (falsy (opts !! js "baseURL") || index0_is_slash (opts !! js "baseURL"))
    eqn:Hb.
  - left. split_and!; [done|by eexists|by eexists| |done].
    by apply base_url_allows_local_spec.
  - right. split; [|done]. intros (_ & _ & _ & Ho).
    apply base_url_allows_local_spec in Ho. congruence.
Qed.

(** C4, as amended.  The client calls the transport [getFetch] selects, with
    the URL [fillPath] makes from the path parameters of the options, and
    with the effective options in which the four hook fields hold the
    composed hooks when there is a registry; the path parameters stay in
    the options the transport is called with.  What the transport returns
    is returned as it is. *)
Theorem createOpenFetch_dispatch env options localFetch ident hooks url callOptions :
  createOpenFetch env options localFetch ident hooks url callOptions
  = (resolved ← fillPath url
                  (path_of (transport_options options ident hooks callOptions));
     Normal (getFetch env url (transport_options options ident hooks callOptions)
               localFetch resolved
               (transport_options options ident hooks callOptions)))
  ∧ transport_options options ident hooks callOptions !! js "path"
    = Given <$> effectiveOptions options callOptions !! js "path"
  ∧ ∀ k, transport_options options ident hooks callOptions !! k
         = match hooks, hook_of_name k with
           | Some h, Some hook =>
               Some (Composed
                       (createHook h (effectiveOptions options callOptions) hook ident))
           | _, _ => Given <$> effectiveOptions options callOptions !! k
           end.
Proof.
  split_and!; [done| |apply transport_options_lookup].
  rewrite transport_options_lookup.
  replace (hook_of_name (js "path")) with (@None FetchHook) by done.
  by destruct hooks.
Qed.

(** C6.  Without a registry [getOpenFetchHooks] makes no hook: the options
    the transport is called with are the effective options, field by field,
    the hook fields of the call or base options among them, and the call
    goes on as usual. *)
Theorem no_registry_local_hooks_only env options localFetch ident url callOptions :
  getOpenFetchHooks None (effectiveOptions options callOptions) ident
  = (∅ : gmap ustring (composed_hook Ctx Action))
  ∧ transport_options options ident None callOptions
    = Given <$> effectiveOptions options callOptions
  ∧ (∀ hook, transport_options options ident None callOptions !! hook_name hook
             = Given <$> effectiveOptions options callOptions !! hook_name hook)
  ∧ createOpenFetch env options localFetch ident None url callOptions
    = (resolved ← fillPath url (path_of (Given <$> effectiveOptions options callOptions));
       Normal (getFetch env url (Given <$> effectiveOptions options callOptions)
                 localFetch resolved
                 (Given <$> effectiveOptions options callOptions))).
Proof.
  assert (transport_options options ident None callOptions
          = Given <$> effectiveOptions options callOptions) as Heq.
  { unfold transport_options, overlay. cbn [getOpenFetchHooks].
    by rewrite fmap_empty, (left_id_L ∅ (∪)). }
  split_and!; [done|done| |].
  - intros hook. by rewrite Heq, lookup_fmap.
  - rewrite <- Heq. done.
Qed.
End client.

(** On the server, a root-relative URL goes to the local transport with the
    base URL [/api], with none, and with [baseURL: undefined]; with the base
    URL [https://example.com] it goes to the global transport. *)
Example getFetch_examples :
  getFetch server_runtime (js "/pets")
    {[ js "baseURL" := Given (OValue (VString (js "/api"))) ]} (Some local_transport)
  = local_transport
  ∧ getFetch server_runtime (js "/pets") ∅ (Some local_transport) = local_transport
  ∧ getFetch server_runtime (js "/pets")
      {[ js "baseURL" := Given (OValue VUndefined) ]} (Some local_transport)
    = local_transport
  ∧ getFetch server_runtime (js "/pets")
      {[ js "baseURL" := Given (OValue (VString (js "https://example.com"))) ]}
      (Some local_transport)
    = globalThis_fetch server_runtime.
Proof.
  unfold getFetch. rewrite !lookup_singleton_eq, lookup_empty. done.
Qed.

(** The claim C3 as stated fails for an empty base URL: it is present and
    does not start with a slash, and the local transport is taken. *)
Lemma getFetch_empty_baseURL :
  ({[ js "baseURL" := Given (OValue (VString [])) ]} : TransportOptions unit nat)
    !! js "baseURL" = Some (Given (OValue (VString [])))
  ∧ ¬ root_relative []
  ∧ getFetch server_runtime (js "/pets")
      {[ js "baseURL" := Given (OValue (VString [])) ]} (Some local_transport)
    = local_transport
  ∧ local_transport ≠ globalThis_fetch server_runtime.
Proof.
  split_and!.
  - apply lookup_singleton_eq.
  - by intros [s [=]].
  - unfold getFetch. by rewrite lookup_singleton_eq.
  - intros H. by apply (f_equal (fun f => f [] ∅)) in H.
Qed.

(** The claim C4 as stated fails for a call with path parameters: the
    options the transport is called with still have the field [path]. *)
Lemma createOpenFetch_keeps_path :
  createOpenFetch recording_runtime (Static ∅) None None None
    (js "/pet/{petId}")
    (Some {[ js "path" := ORecord [(js "petId", VNumber 1)] ]})
  = Normal (js "/pet/1", [js "path"]).
Proof. by vm_compute. Qed.

(** * Further properties of the path template resolver *)

Lemma unescaped_not_surrogate c :
  unescaped c = true -> is_lead c = false ∧ is_trail c = false.
Proof.
  unfold unescaped. intros H.
  apply existsb_exists in H as (x & Hin & Heq).
  apply Z.eqb_eq in Heq. subst x.
  vm_compute in Hin.
  repeat (destruct Hin as [<- | Hin]; [by vm_compute|]).
  destruct Hin.
Qed.

Lemma hexdigit_unescaped x : unescaped (hexdigit (Z.land x 15)) = true.
Proof.
  pose proof (nibble_range x) as Hr.
  assert (∃ n, (n < 16)%nat ∧ Z.land x 15 = Z.of_nat n) as (n & Hn & ->).
  { exists (Z.to_nat (Z.land x 15)). lia. }
  do 16 (destruct n as [|n]; [by vm_compute|]). lia.
Qed.

Lemma pct_octets_charset os :
  Forall (fun c => unescaped c = true ∨ c = percent) (pct_octets os).
Proof.
  unfold pct_octets. induction os as [|o os IH]; cbn [List.map List.concat].
  - constructor.
  - apply Forall_app. split; [|exact IH]. unfold pct.
    constructor; [by right|].
    constructor; [left; apply hexdigit_unescaped|].
    constructor; [left; apply hexdigit_unescaped|constructor].
Qed.

(** X1.  Whatever [encodeURIComponent] returns is made of unreserved
    characters and percent signs only: a value filled into a path brings in
    no slash, question mark, hash or brace of its own. *)
Theorem encodeURIComponent_charset s r :
  encodeURIComponent s = Normal r ->
  Forall (fun c => unescaped c = true ∨ c = percent) r
  ∧ Forall (fun c => c ∉ js "/?#&={}$") r.
Proof.
  intros H.
  assert (Forall (fun c => unescaped c = true ∨ c = percent) r) as Hcs.
  { remember (length s) as n eqn:Hn.
    revert s r Hn H. induction n as [n IH] using lt_wf_ind. intros s r Hn.
    destruct s as [|c rest]; cbn [encodeURIComponent].
    - intros [= <-]. constructor.
    - destruct (unescaped c) eqn:Hu.
      + destruct (encodeURIComponent rest) as [r'|] eqn:Hr; [|done].
        intros [= <-]. constructor; [by left|].
        eapply (IH (length rest)); [simpl in Hn; lia|reflexivity|exact Hr].
      + destruct (is_lead c).
        * destruct rest as [|d rest']; [done|].
          destruct (is_trail d); [|done].
          destruct (encodeURIComponent rest') as [r'|] eqn:Hr; [|done].
          intros [= <-]. apply Forall_app. split; [apply pct_octets_charset|].
          eapply (IH (length rest')); [simpl in Hn; lia|reflexivity|exact Hr].
        * destruct (is_trail c); [done|].
          destruct (encodeURIComponent rest) as [r'|] eqn:Hr; [|done].
          intros [= <-]. apply Forall_app. split; [apply pct_octets_charset|].
          eapply (IH (length rest)); [simpl in Hn; lia|reflexivity|exact Hr]. }
  split; [done|].
  eapply Forall_impl; [exact Hcs|]. intros c [Hc| ->] Hin.
  - vm_compute in Hin.
    repeat (apply elem_of_cons in Hin as [->|Hin]; [by vm_compute in Hc|]).
    by apply elem_of_nil in Hin.
  - vm_compute in Hin.
    repeat (apply elem_of_cons in Hin as [[=]|Hin]).
    by apply elem_of_nil in Hin.
Qed.

Lemma encodeURIComponent_charset_witness :
  Forall (fun c => c ∉ js "/?#&={}$") (js "..%2Fetc%3Fa%3D%7B1%7D").
Proof.
  assert (encodeURIComponent (js "../etc?a={1}") = Normal (js "..%2Fetc%3Fa%3D%7B1%7D"))
    as H by (by vm_compute).
  exact (proj2 (encodeURIComponent_charset _ _ H)).
Defined.

(** X2.  [encodeURIComponent] returns a value exactly on the strings in
    which every surrogate is paired, and throws a URIError on the others. *)
Theorem encodeURIComponent_well_formed s :
  (isWellFormed s = true ∧ ∃ r, encodeURIComponent s = Normal r)
  ∨ (isWellFormed s = false ∧ encodeURIComponent s = Throw URIError).
Proof.
  remember (length s) as n eqn:Hn.
  revert s Hn. induction n as [n IH] using lt_wf_ind. intros s Hn.
  destruct s as [|c rest]; cbn [encodeURIComponent isWellFormed].
  - left. by eauto.
  - destruct (unescaped c) eqn:Hu.
    + destruct (unescaped_not_surrogate _ Hu) as [-> ->]. cbn [negb andb].
      destruct (IH (length rest)) with (s := rest) as [[-> [r ->]]|[-> ->]];
        [simpl in Hn; lia|done|left|right]; by eauto.
    + destruct (is_lead c).
      * destruct rest as [|d rest']; [by right|].
        destruct (is_trail d); cbn [andb]; [|by right].
        destruct (IH (length rest')) with (s := rest') as [[-> [r ->]]|[-> ->]];
          [simpl in Hn; lia|done|left|right]; by eauto.
      * destruct (is_trail c); cbn [negb andb]; [by right|].
        destruct (IH (length rest)) with (s := rest) as [[-> [r ->]]|[-> ->]];
          [simpl in Hn; lia|done|left|right]; by eauto.
Qed.

Lemma foldl_replace_literal path (rs : list (ustring * ustring)) :
  Forall (fun kr => Forall clean kr.2) rs ->
  foldl replace_entry path rs
  = foldl (fun p kr => replace_first (placeholder kr.1) kr.2 p) path rs.
Proof.
  intros Hrs. revert path. induction Hrs as [|[k r] rs Hr _ IH]; intros path; [done|].
  cbn [foldl]. unfold replace_entry at 2. cbn [fst snd] in *.
  rewrite replace_literal by by apply clean_no_dollar. apply IH.
Qed.

(** X3.  The encoded values are inserted as they are: the patterns [$$],
    [$&], [$`] and [$'] of [String.prototype.replace] never take effect in
    [fillPath], whatever the values hold. *)
Theorem fillPath_literal path (M : entries) rs :
  encode_entries M = Normal rs ->
  fillPath path (Some M)
  = Normal (foldl (fun p kr => replace_first (placeholder kr.1) kr.2 p) path rs).
Proof.
  intros Hrs. unfold fillPath. change (default [] (Some M)) with M.
  rewrite fillPath_loop_encode, Hrs. cbn [mbind completion_bind]. f_equal.
  apply foldl_replace_literal. by apply encode_entries_spec in Hrs as (_ & ? & _).
Qed.

Lemma fillPath_literal_witness :
  fillPath (js "/q/{x}/{y}") (Some [(js "x", VString (js "$&$'")); (js "y", VString (js "$$"))])
  = Normal (js "/q/%24%26%24'/%24%24").
Proof.
  assert (encode_entries [(js "x", VString (js "$&$'")); (js "y", VString (js "$$"))]
          = Normal [(js "x", js "%24%26%24'"); (js "y", js "%24%24")]) as H
    by (by vm_compute).
  etrans; [exact (fillPath_literal (js "/q/{x}/{y}") _ _ H)|]. by vm_compute.
Defined.

Lemma encode_entries_throws (M : entries) e :
  encode_entries M = Throw e <-> e = URIError ∧ Exists unencodable M.
Proof.
  split.
  - intros H. split; [by eapply encode_entries_error|].
    induction M as [|[k v] M IH]; [done|]. cbn [encode_entries] in H.
    destruct (encodeURIComponent (ToString v)) as [r|e'] eqn:Hv.
    + right. apply IH. by destruct (encode_entries M).
    + left. unfold unencodable. cbn [snd]. rewrite Hv. f_equal.
      by eapply encodeURIComponent_error.
  - intros [-> H]. induction H as [[k v] M Hv|[k v] M _ IH]; cbn [encode_entries].
    + unfold unencodable in Hv. cbn [snd] in Hv. by rewrite Hv.
    + destruct (encodeURIComponent (ToString v)) as [r|e'] eqn:Hv.
      * by rewrite IH.
      * cbn [mbind completion_bind]. f_equal. by eapply encodeURIComponent_error.
Qed.

Lemma fillPath_throws path (M : entries) e :
  fillPath path (Some M) = Throw e <-> e = URIError ∧ Exists unencodable M.
Proof.
  unfold fillPath. change (default [] (Some M)) with M.
  rewrite fillPath_loop_encode, <- encode_entries_throws.
  destruct (encode_entries M); cbn [mbind completion_bind];
    split; intros [=]; by subst.
Qed.

(** X4.  [fillPath] throws exactly when the record has a value whose string
    form cannot be encoded, whether or not the key of that value occurs in
    the path; the error is a URIError and nothing else. *)
Theorem fillPath_throws_iff path (M : entries) e :
  fillPath path (Some M) = Throw e <-> e = URIError ∧ Exists unencodable M.
Proof. apply fillPath_throws. Qed.

Lemma replace_absent s pat rep : StringIndexOf s pat = None -> replace s pat rep = s.
Proof. unfold replace. by intros ->. Qed.

(** X5.  Keys whose placeholder does not occur in the path are passed over:
    when none of the keys of the record has its placeholder in the path (and
    the values can be encoded), the path comes back as it is. *)
Theorem fillPath_absent_keys path (M : entries) rs :
  encode_entries M = Normal rs ->
  Forall (fun kv => StringIndexOf path (placeholder kv.1) = None) M ->
  fillPath path (Some M) = Normal path.
Proof.
  intros Hrs HM. unfold fillPath. change (default [] (Some M)) with M.
  rewrite fillPath_loop_encode, Hrs. cbn [mbind completion_bind]. f_equal.
  apply encode_entries_spec in Hrs as (Hkeys & _).
  assert (Forall (fun k => StringIndexOf path (placeholder k) = None) rs.*1) as Hk.
  { rewrite Hkeys. by apply Forall_fmap. }
  clear -Hk. induction rs as [|[k r] rs IH]; [done|].
  cbn [fmap list_fmap fst] in Hk. apply Forall_cons in Hk as [Hk Hrs].
  cbn [foldl]. unfold replace_entry at 2. cbn [fst snd].
  rewrite replace_absent by done. by apply IH.
Qed.

Lemma fillPath_absent_keys_witness :
  fillPath (js "/pet/findByStatus") (Some [(js "petId", VNumber 1)])
  = Normal (js "/pet/findByStatus").
Proof.
  apply (fillPath_absent_keys _ _ [(js "petId", js "1")]).
  - by vm_compute.
  - repeat constructor.
Defined.

Lemma fill_spec_well_formed (m : gmap ustring ustring) segs :
  (∀ k r, m !! k = Some r -> lbrace ∉ r) ->
  Forall well_formed segs -> Forall well_formed (fill_spec m segs).
Proof.
  intros Hm Hwf. revert m Hm.
  induction Hwf as [|[t|t] segs Hseg _ IH]; intros m Hm; cbn [fill_spec].
  - constructor.
  - constructor; [done|by apply IH].
  - destruct (m !! t) as [r|] eqn:Ht.
    + constructor; [by eapply Hm|]. apply IH.
      intros k r' Hk. apply lookup_delete_Some in Hk as [_ Hk]. by eapply Hm.
    + constructor; [done|by apply IH].
Qed.

Lemma params_fill_spec (m : gmap ustring ustring) segs x :
  x ∈ params (fill_spec m segs) -> x ∈ params segs.
Proof.
  revert m. induction segs as [|[t|t] segs IH]; intros m;
    cbn [fill_spec params omap list_omap]; [done|by apply IH|].
  destruct (m !! t); cbn [params omap list_omap].
  - intros Hx. right. by eapply IH.
  - intros [->|Hx]%elem_of_cons; [by left|]. right. by eapply IH.
Qed.

Lemma fill_spec_unfilled (m : gmap ustring ustring) segs x :
  NoDup (params segs) -> x ∈ params (fill_spec m segs) -> m !! x = None.
Proof.
  revert m. induction segs as [|[t|t] segs IH]; intros m;
    cbn [fill_spec params omap list_omap]; [by intros _ ?%elem_of_nil|by apply IH|].
  intros [Ht Hnd]%NoDup_cons.
  destruct (m !! t) eqn:Hmt; cbn [params omap list_omap].
  - intros Hx. pose proof (params_fill_spec _ _ _ Hx) as Hin.
    specialize (IH _ Hnd Hx). rewrite lookup_delete_ne in IH; [done|].
    by intros ->.
  - intros [->|Hx]%elem_of_cons; [done|]. by apply IH.
Qed.

Lemma fill_spec_nothing (m : gmap ustring ustring) segs :
  (∀ x, x ∈ params segs -> m !! x = None) -> fill_spec m segs = segs.
Proof.
  induction segs as [|[t|t] segs IH]; cbn [fill_spec params omap list_omap];
    intros Hm; [done|by rewrite IH|].
  rewrite (Hm t) by by left. rewrite IH; [done|]. intros x Hx. apply Hm. by right.
Qed.

Lemma fillPath_twice segs (M : entries) p :
  Forall well_formed segs -> NoDup (params segs) ->
  NoDup M.*1 -> Forall (fun k => rbrace ∉ k) M.*1 ->
  fillPath (render segs) (Some M) = Normal p ->
  fillPath p (Some M) = Normal p.
Proof.
  intros Hwf Hnd HndM Hk. rewrite fillPath_template by done.
  destruct (encode_entries M) as [rs|] eqn:Hrs; cbn [mbind completion_bind]; [|done].
  intros [= <-].
  assert (∀ k r, (list_to_map rs : gmap ustring ustring) !! k = Some r -> lbrace ∉ r)
    as Hclean.
  { intros k r Hkr. apply elem_of_list_to_map_2 in Hkr.
    apply encode_entries_spec in Hrs as (_ & Hc & _).
    rewrite Forall_forall in Hc. by apply clean_no_lbrace, (Hc (k, r)). }
  rewrite fillPath_template; [|by apply fill_spec_well_formed|done|done].
  rewrite Hrs. cbn [mbind completion_bind]. do 2 f_equal.
  apply fill_spec_nothing. intros x Hx. by eapply fill_spec_unfilled.
Qed.

(** X6.  Filling an already filled path again changes nothing: on a template
    whose placeholders do not nest and are pairwise distinct (the keys
    holding no closing brace), [fillPath] applied to its own result with the
    same record returns that result. *)
Theorem fillPath_idempotent segs (M : entries) p :
  Forall well_formed segs -> NoDup (params segs) ->
  NoDup M.*1 -> Forall (fun k => rbrace ∉ k) M.*1 ->
  fillPath (render segs) (Some M) = Normal p ->
  fillPath p (Some M) = Normal p.
Proof. apply fillPath_twice. Qed.

Lemma fillPath_idempotent_witness :
  fillPath (js "/pet/7/{size}") (Some [(js "petId", VNumber 7)])
  = Normal (js "/pet/7/{size}").
Proof.
  apply (fillPath_idempotent
           [Text (js "/pet/"); Param (js "petId"); Text (js "/"); Param (js "size")]).
  - repeat constructor; compute_done.
  - compute_done.
  - compute_done.
  - compute_done.
  - by vm_compute.
Defined.

(** With a placeholder that occurs twice the second pass fills the second
    occurrence. *)
Example fillPath_second_pass :
  fillPath (js "/{a}/{a}") (Some [(js "a", VNumber 1)]) = Normal (js "/1/{a}")
  ∧ fillPath (js "/1/{a}") (Some [(js "a", VNumber 1)]) = Normal (js "/1/1").
Proof. by vm_compute. Qed.

(** * Further properties of the hook dispatch chain *)

Section settle.
Context {Ctx Action : Type}.
Implicit Types (hooks : Hookable Ctx Action) (baseOpts : FetchOptions Ctx Action).

Lemma createHook_parts hooks baseOpts hook ident sched ctx :
  createHook hooks baseOpts hook ident sched ctx
  = and_then (global_run hooks hook ctx)
      (and_then (client_run hooks hook ident ctx) (local_run baseOpts hook sched ctx)).
Proof.
  unfold createHook, global_run, client_run, local_run, list_run.
  by destruct (baseOpts !! hook_name hook) as [[]|].
Qed.

Lemma and_then_snd (p q : run Action) :
  (and_then p q).2 = match p.2 with Fulfilled => q.2 | o => o end.
Proof. destruct p as [tr []], q; done. Qed.

Lemma await_as_snd (i : tier) (c : task Action) : (await_as i c).2 = (await c).2.
Proof. unfold await_as. by destruct (await c). Qed.

Lemma rejection_await (p : task Action) e :
  rejection p = Some e -> (await p).2 = Rejected e.
Proof. destruct p; try done; by intros [= ->]. Qed.

Lemma first_rejection_Some (ps : list (task Action)) e :
  first_rejection ps = Some e -> ∃ i p, ps !! i = Some p ∧ rejection p = Some e.
Proof.
  unfold first_rejection. induction ps as [|q ps IH]; [done|].
  cbn [omap list_omap]. destruct (rejection q) as [e0|] eqn:Hq.
  - intros [= <-]. by exists 0%nat, q.
  - intros H. destruct (IH H) as (i & p & ? & ?). by exists (S i), p.
Qed.

Lemma promise_all_rejected sched (ps : list (task Action)) tr e :
  promise_all sched ps = (tr, Rejected e) ->
  ∃ i p, ps !! i = Some p ∧ (await p).2 = Rejected e.
Proof.
  revert ps tr. induction sched as [|j sched IH]; intros ps tr; cbn [promise_all];
    destruct (first_rejection ps) as [e0|] eqn:Hrej.
  1,3: intros [= <- <-]; apply first_rejection_Some in Hrej as (i & p & ? & ?);
       exists i, p; split; [done|by apply rejection_await].
  - by destruct (forallb fulfilled ps).
  - destruct (forallb fulfilled ps); [done|].
    destruct (ps !! j) as [[| | | | |k]|] eqn:Hj; try by apply IH.
    destruct (advance k) as [tr0 r] eqn:Hk.
    destruct (promise_all sched (<[j:=r]> ps)) as [tr' o] eqn:Hrun.
    intros [= <- ->]. destruct (IH _ _ Hrun) as (i & p & Hi & Hp).
    destruct (decide (i = j)) as [->|Hne].
    + rewrite list_lookup_insert_eq in Hi by by eapply lookup_lt_Some.
      injection Hi as <-. exists j, (Suspend k). split; [done|].
      cbn [await]. by rewrite await_advance, Hk.
    + rewrite list_lookup_insert_ne in Hi by done. by exists i, p.
Qed.

Lemma call_each_throw i (calls : list (task Action)) tr e :
  call_each i calls = (tr, Throw e) -> ∃ c, c ∈ calls ∧ (await c).2 = Rejected e.
Proof.
  revert i tr. induction calls as [|c calls IH]; intros i tr; [done|].
  cbn [call_each]. destruct (advance c) as [tr0 r] eqn:Hc.
  assert ((await c).2 = (await r).2) as Hcr by by rewrite await_advance, Hc.
  destruct (call_each (S i) calls) as [tr' [rs|e']] eqn:Hrest.
  - destruct r; try done. intros [= _ <-]. exists c. split; [by left|done].
  - destruct r; intros [= _ <-];
      first [exists c; split; [by left|done]
            |destruct (IH _ _ Hrest) as (c' & ? & ?); exists c'; split; [by right|done]].
Qed.

Lemma list_run_rejected sched (calls : list (task Action)) tr e :
  list_run sched calls = (tr, Rejected e) ->
  ∃ c, c ∈ calls ∧ (await c).2 = Rejected e.
Proof.
  unfold list_run. destruct (call_each 0 calls) as [tr0 [ps|e0]] eqn:Hstart.
  - apply call_each_normal in Hstart as [-> ->]. cbn [and_then].
    destruct (promise_all sched _) as [tr' o] eqn:Hrun. intros [= <- ->].
    apply promise_all_rejected in Hrun as (i & p & Hi & Hp).
    change (List.map ?f ?l) with (f <$> l) in Hi.
    apply list_lookup_fmap_Some in Hi as (c & -> & Hc).
    exists c. split; [by eapply list_elem_of_lookup_2|].
    by rewrite await_advance.
  - intros [= <- <-]. by eapply call_each_throw.
Qed.

Lemma list_run_fulfilled sched (calls : list (task Action)) tr :
  list_run sched calls = (tr, Fulfilled) -> Forall completes calls.
Proof.
  unfold list_run. destruct (call_each 0 calls) as [tr0 [ps|e0]] eqn:Hstart; [|done].
  apply call_each_normal in Hstart as [-> ->]. cbn [and_then].
  destruct (promise_all sched _) as [tr' o] eqn:Hrun. intros [= <- ->].
  apply Forall_forall. intros c Hc.
  apply list_elem_of_lookup_1 in Hc as [i Hi].
  assert (List.map (fun c => (advance c).2) calls !! i = Some (advance c).2) as Hp.
  { change (List.map ?f ?l) with (f <$> l). by rewrite list_lookup_fmap, Hi. }
  unfold completes. rewrite await_advance. cbn [snd].
  by rewrite (promise_all_fulfilled _ _ _ Hrun _ _ Hp).
Qed.

Lemma local_run_rejected baseOpts hook sched ctx e :
  (local_run baseOpts hook sched ctx).2 = Rejected e ->
  Rejected e ∈ match baseOpts !! hook_name hook with
               | Some (OHooks hs) => List.map (fun h => (await (h ctx)).2) hs
               | Some (OHook h) => [(await (h ctx)).2]
               | Some (OValue v) => if uncallable v then [Rejected TypeError] else []
               | Some (ORecord _) => [Rejected TypeError]
               | None => []
               end.
Proof.
  unfold local_run. destruct (baseOpts !! hook_name hook) as [[v|r|h|hs]|].
  - destruct (uncallable v); [|done]. intros [= <-]. by left.
  - intros [= <-]. by left.
  - rewrite await_as_snd. intros ->. by left.
  - destruct (list_run sched _) as [tr o] eqn:Hrun. cbn [snd]. intros ->.
    apply list_run_rejected in Hrun as (c' & (h & -> & Hin)%list_elem_of_fmap & Hrej).
    rewrite <- Hrej. by apply (list_elem_of_fmap_2 (fun h => (await (h ctx)).2)).
  - done.
Qed.

Lemma client_run_snd hooks hook ident ctx :
  (client_run hooks hook ident ctx).2
  = match ident with
    | Some (c :: id) => (await (callHook hooks (client_channel hook (c :: id)) ctx)).2
    | _ => Fulfilled
    end.
Proof.
  unfold client_run. destruct ident as [[|c id]|]; try done. by rewrite await_as_snd.
Qed.

Lemma createHook_rejected hooks baseOpts hook ident sched ctx e :
  (createHook hooks baseOpts hook ident sched ctx).2 = Rejected e ->
  Rejected e ∈ tier_outcomes hooks baseOpts hook ident ctx.
Proof.
  rewrite createHook_parts, !and_then_snd, client_run_snd.
  unfold tier_outcomes, global_run. rewrite await_as_snd.
  destruct (await (callHook hooks (global_channel hook) ctx)).2 eqn:Hg;
    [|intros [= ->]; by left|done].
  intros H. right. apply elem_of_app.
  destruct ident as [[|c id]|].
  - right. by apply local_run_rejected in H.
  - destruct (await (callHook hooks (client_channel hook (c :: id)) ctx)).2 eqn:Hcl.
    + right. by apply local_run_rejected in H.
    + left. rewrite <- H. by left.
    + done.
  - right. by apply local_run_rejected in H.
Qed.

Lemma createHook_fulfilled hooks baseOpts hook ident sched ctx :
  (createHook hooks baseOpts hook ident sched ctx).2 = Fulfilled ->
  Forall (fun o => o = Fulfilled) (tier_outcomes hooks baseOpts hook ident ctx).
Proof.
  rewrite createHook_parts, !and_then_snd. unfold tier_outcomes, global_run.
  rewrite await_as_snd.
  destruct (await (callHook hooks (global_channel hook) ctx)).2 eqn:Hg; try done.
  intros H. constructor; [done|]. apply Forall_app.
  rewrite client_run_snd in H.
  assert (Forall (fun o => o = Fulfilled)
            match ident with
            | Some (c :: id) =>
                [(await (callHook hooks (client_channel hook (c :: id)) ctx)).2]
            | _ => []
            end ∧ (local_run baseOpts hook sched ctx).2 = Fulfilled) as [Hc Hl].
  { destruct ident as [[|c id]|]; try (split; [constructor|done]).
    destruct (await (callHook hooks (client_channel hook (c :: id)) ctx)).2; try done.
    split; [by repeat constructor|done]. }
  split; [done|]. clear -Hl. unfold local_run in Hl.
  destruct (baseOpts !! hook_name hook) as [[v|r|h|hs]|]; cbn [snd] in Hl.
  - by destruct (uncallable v).
  - done.
  - rewrite await_as_snd in Hl. by repeat constructor.
  - destruct (list_run sched _) as [tr o] eqn:Hrun. cbn [snd] in Hl. subst o.
    apply list_run_fulfilled in Hrun. apply Forall_forall.
    intros o (h & -> & Hin)%list_elem_of_fmap.
    rewrite Forall_forall in Hrun.
    by apply Hrun, (list_elem_of_fmap_2 (fun h => h ctx)).
  - constructor.
Qed.
End settle.

Section schedules.
Context {Ctx Action : Type}.
Implicit Types (hooks : Hookable Ctx Action) (baseOpts : FetchOptions Ctx Action).

(** X7.  The dispatcher makes up no error of its own and changes none: when
    the callback is rejected, the reason is the one with which the call of
    the global channel, the call of the channel of the client or one of the
    local hooks ends when awaited alone (a TypeError when the hook field
    holds something that cannot be called). *)
Theorem createHook_rejection_origin hooks baseOpts (hook : FetchHook)
    (hookIdentifier : option ustring) (sched : list nat) (ctx : Ctx)
    (tr : list (event Action)) (e : exn) :
  createHook hooks baseOpts hook hookIdentifier sched ctx = (tr, Rejected e) ->
  Rejected e ∈ tier_outcomes hooks baseOpts hook hookIdentifier ctx.
Proof. intros H. apply (createHook_rejected _ _ _ _ sched). by rewrite H. Qed.

Lemma promise_all_extend sched more (ps : list (task Action)) tr o :
  promise_all sched ps = (tr, o) -> o ≠ Pending ->
  promise_all (sched ++ more) ps = (tr, o).
Proof.
  revert ps tr. induction sched as [|j sched IH]; intros ps tr; cbn [promise_all app].
  - destruct (first_rejection ps) as [e0|] eqn:Hrej.
    + intros [= <- <-] _. destruct more; cbn [promise_all]; by rewrite Hrej.
    + destruct (forallb fulfilled ps) eqn:Hall; [|by intros [= <- <-]].
      intros [= <- <-] _. destruct more; cbn [promise_all]; by rewrite Hrej, Hall.
  - destruct (first_rejection ps); [done|].
    destruct (forallb fulfilled ps); [done|].
    destruct (ps !! j) as [[| | | | |k]|]; try by apply IH.
    destruct (advance k) as [tr0 r].
    destruct (promise_all sched (<[j:=r]> ps)) as [tr' o'] eqn:Hrun.
    intros [= <- <-] Ho. by rewrite (IH _ _ Hrun Ho).
Qed.

Lemma local_run_extend baseOpts hook sched more ctx tr o :
  local_run baseOpts hook sched ctx = (tr, o) -> o ≠ Pending ->
  local_run baseOpts hook (sched ++ more) ctx = (tr, o).
Proof.
  unfold local_run. destruct (baseOpts !! hook_name hook) as [[v|r|h|hs]|]; try done.
  unfold list_run. destruct (call_each 0 _) as [tr0 [ps|e0]]; [|done].
  cbn [and_then]. destruct (promise_all sched ps) as [tr' o'] eqn:Hrun.
  intros [= <- <-] Ho. by rewrite (promise_all_extend _ more _ _ _ Hrun Ho).
Qed.

(** X8.  Once the callback has settled, what the environment does later is
    of no account: a run that ends fulfilled or rejected under an order of
    resumption ends the same way, with the same effects, under every
    continuation of that order. *)
Theorem createHook_settled_for_good hooks baseOpts (hook : FetchHook)
    (hookIdentifier : option ustring) (sched more : list nat) (ctx : Ctx)
    (tr : list (event Action)) (o : outcome) :
  createHook hooks baseOpts hook hookIdentifier sched ctx = (tr, o) ->
  o ≠ Pending ->
  createHook hooks baseOpts hook hookIdentifier (sched ++ more) ctx = (tr, o).
Proof.
  rewrite !createHook_parts.
  destruct (global_run hooks hook ctx) as [tg []]; cbn [and_then]; try done.
  destruct (client_run hooks hook hookIdentifier ctx) as [tc []]; cbn [and_then]; try done.
  destruct (local_run baseOpts hook sched ctx) as [tl ol] eqn:Hl.
  intros [= <- <-] Ho. by rewrite (local_run_extend _ _ _ more _ _ _ Hl Ho).
Qed.

(** X9.  There is no watchdog: when one hook of the chain never settles and
    none is rejected, the callback stays pending under every order of
    resumption. *)
Theorem createHook_never_settles hooks baseOpts (hook : FetchHook)
    (hookIdentifier : option ustring) (sched : list nat) (ctx : Ctx) :
  Pending ∈ tier_outcomes hooks baseOpts hook hookIdentifier ctx ->
  Forall (fun o => ∀ e, o ≠ Rejected e)
         (tier_outcomes hooks baseOpts hook hookIdentifier ctx) ->
  (createHook hooks baseOpts hook hookIdentifier sched ctx).2 = Pending.
Proof.
  intros Hp Hr.
  destruct (createHook hooks baseOpts hook hookIdentifier sched ctx).2 eqn:Ho; [| |done].
  - apply createHook_fulfilled in Ho. rewrite Forall_forall in Ho.
    by specialize (Ho _ Hp).
  - apply createHook_rejected in Ho. rewrite Forall_forall in Hr.
    by destruct (Hr _ Ho e).
Qed.

Lemma client_run_can_fulfil hooks hook ident ctx :
  Forall (fun o => o = Fulfilled)
    match ident with
    | Some (c :: id) => [(await (callHook hooks (client_channel hook (c :: id)) ctx)).2]
    | _ => []
    end ->
  ∃ tc, client_run hooks hook ident ctx = (tc, Fulfilled).
Proof.
  unfold client_run, await_as, skip. destruct ident as [[|c id]|]; try by eexists.
  intros [H _]%Forall_cons. destruct (await _) as [t o]. cbn [snd] in H. subst o.
  by eexists.
Qed.

Lemma local_run_can_fulfil baseOpts hook ctx :
  Forall (fun o => o = Fulfilled)
    match baseOpts !! hook_name hook with
    | Some (OHooks hs) => List.map (fun h => (await (h ctx)).2) hs
    | Some (OHook h) => [(await (h ctx)).2]
    | Some (OValue v) => if uncallable v then [Rejected TypeError] else []
    | Some (ORecord _) => [Rejected TypeError]
    | None => []
    end ->
  ∃ sched tl, local_run baseOpts hook sched ctx = (tl, Fulfilled).
Proof.
  unfold local_run, await_as, skip.
  destruct (baseOpts !! hook_name hook) as [[v|r|h|hs]|].
  - destruct (uncallable v); [by intros [[=] _]%Forall_cons|]. intros _. exists []. by eexists.
  - by intros [[=] _]%Forall_cons.
  - intros [H _]%Forall_cons. destruct (await (h ctx)) as [t o]. cbn [snd] in H.
    subst o. exists []. by eexists.
  - intros H.
    assert (Forall completes (List.map (fun h => h ctx) hs)) as Hcalls.
    { apply Forall_forall. intros c (h & -> & Hin)%list_elem_of_fmap.
      rewrite Forall_forall in H.
      by apply H, (list_elem_of_fmap_2 (fun h => (await (h ctx)).2)). }
    unfold list_run.
    destruct (call_each_completes 0 _ Hcalls) as [ts ->].
    destruct (promise_all_completes (List.map (fun c => (advance c).2)
                                       (List.map (fun h => h ctx) hs)))
      as (sched & tr & Hrun).
    + apply Forall_forall. intros p (c & -> & _)%list_elem_of_fmap.
      apply advance_at_rest.
    + apply Forall_forall. intros p (c & -> & Hin)%list_elem_of_fmap.
      rewrite Forall_forall in Hcalls. by apply advance_completes, Hcalls.
    + exists sched. cbn [and_then]. rewrite Hrun. by eexists.
  - intros _. exists []. by eexists.
Qed.

(** X10.  The callback can be fulfilled exactly when every hook of the
    chain completes: if it is fulfilled under some order of resumption, the
    call of the global channel, the call of the channel of the client and
    every local hook end fulfilled when awaited alone; and if they all do,
    some order of resumption fulfils the callback. *)
Theorem createHook_fulfilled_iff hooks baseOpts (hook : FetchHook)
    (hookIdentifier : option ustring) (ctx : Ctx) :
  (∃ sched tr, createHook hooks baseOpts hook hookIdentifier sched ctx = (tr, Fulfilled))
  <-> Forall (fun o => o = Fulfilled)
        (tier_outcomes hooks baseOpts hook hookIdentifier ctx).
Proof.
  split.
  - intros (sched & tr & H). apply (createHook_fulfilled _ _ _ _ sched). by rewrite H.
  - unfold tier_outcomes. intros [Hg [Hc Hl]%Forall_app]%Forall_cons.
    apply client_run_can_fulfil in Hc as [tc Hc].
    apply local_run_can_fulfil in Hl as (sched & tl & Hl).
    exists sched. rewrite createHook_parts, Hc, Hl.
    unfold global_run, await_as.
    destruct (await (callHook hooks (global_channel hook) ctx)) as [tg og].
    cbn [snd] in Hg. subst og. by eexists.
Qed.
End schedules.

Section map_stops.
Context {Ctx Action : Type}.
Implicit Types (hooks : Hookable Ctx Action) (baseOpts : FetchOptions Ctx Action).

Lemma project_started_ge n m (calls : list (task Action)) :
  (n + length calls <= m)%nat ->
  project (Local m)
    (List.concat (imap (fun j c => tag (Local (n + j)) (advance c).1) calls)) = [].
Proof.
  revert n. induction calls as [|c calls IH]; intros n Hle; [done|].
  cbn [imap List.concat]. cbn [length] in Hle. rewrite project_app.
  rewrite project_tag_ne by (intros [= ?]; lia). cbn [app].
  rewrite (imap_ext _ (fun j c0 => tag (Local (S n + j)) (advance c0).1)).
  - apply IH. lia.
  - intros j c0 _. cbn. do 2 f_equal. lia.
Qed.

Lemma call_each_stops i (pre post : list (task Action)) c e :
  Forall (fun c' => ∀ e', (advance c').2 ≠ Raise e') pre ->
  (advance c).2 = Raise e ->
  call_each i (pre ++ c :: post)
  = (List.concat (imap (fun j c' => tag (Local (i + j)) (advance c').1) pre)
       ++ tag (Local (i + length pre)) (advance c).1,
     Throw e).
Proof.
  intros Hpre Hc. revert i. induction Hpre as [|c' pre Hc' _ IH]; intros i.
  - cbn [app call_each imap List.concat length].
    destruct (advance c) as [tr0 r]. cbn [fst snd] in *. subst r.
    by rewrite Nat.add_0_r.
  - cbn [app call_each imap List.concat length]. rewrite IH.
    destruct (advance c') as [tr0 r]. cbn [fst snd] in *.
    rewrite (imap_ext ((fun j c0 => tag (Local (i + j)) (advance c0).1) ∘ S)
               (fun j c0 => tag (Local (S i + j)) (advance c0).1))
      by (intros j c0 _; cbn; do 2 f_equal; lia).
    rewrite Nat.add_0_r, <- app_assoc.
    replace (i + S (length pre))%nat with (S i + length pre)%nat by lia.
    destruct r; try done. by destruct (Hc' e0).
Qed.

(** X11.  A local hook of a list that throws before it returns ends the
    [map] over the list: when the tiers before have completed, the callback
    is rejected with what was thrown, under every order of resumption, and
    the entries after the one that threw are never called. *)
Theorem createHook_throw_stops_list hooks baseOpts (hook : FetchHook)
    (hookIdentifier : option ustring) (sched : list nat) (ctx : Ctx)
    (pre post : list (Ctx -> task Action)) (h : Ctx -> task Action) (e : exn) :
  baseOpts !! hook_name hook = Some (OHooks (pre ++ h :: post)) ->
  Forall (fun h' => ∀ e', (advance (h' ctx)).2 ≠ Raise e') pre ->
  (advance (h ctx)).2 = Raise e ->
  completes (callHook hooks (global_channel hook) ctx) ->
  (client_run hooks hook hookIdentifier ctx).2 = Fulfilled ->
  ∃ tr, createHook hooks baseOpts hook hookIdentifier sched ctx = (tr, Rejected e)
        ∧ project (Local (length pre)) tr = (advance (h ctx)).1
        ∧ ∀ j, (length pre < j)%nat -> project (Local j) tr = [].
Proof.
  intros Hopts Hpre Hh Hg Hc. rewrite createHook_parts.
  unfold global_run, await_as, completes in *.
  destruct (await (callHook hooks (global_channel hook) ctx)) as [tg og].
  cbn [snd] in Hg. subst og.
  assert (∃ tc, client_run hooks hook hookIdentifier ctx = (tc, Fulfilled)
                ∧ ∀ j, project (Local j) tc = []) as (tc & -> & Htc).
  { unfold client_run, await_as, skip in *.
    destruct hookIdentifier as [[|c id]|]; try by eexists.
    destruct (await _) as [t o]. cbn [snd] in Hc. subst o.
    eexists. split; [done|]. intros j. by apply project_tag_ne. }
  unfold local_run. rewrite Hopts. unfold list_run.
  rewrite map_app. cbn [List.map].
  rewrite (call_each_stops 0 _ _ _ e); [|by apply Forall_fmap|done].
  cbn [and_then]. eexists. split; [done|].
  rewrite length_map. cbn [Nat.add].
  split; [|intros j Hj]; rewrite !project_app, Htc, project_tag_ne by done; cbn [app].
  - rewrite (project_started_ge 0) by (rewrite length_map; cbn; lia).
    cbn [app]. apply project_tag.
  - rewrite (project_started_ge 0) by (rewrite length_map; cbn; lia).
    cbn [app]. apply project_tag_ne. intros [= ?]. lia.
Qed.
End map_stops.

Lemma createHook_rejection_origin_witness :
  Rejected (Thrown (VString (js "boom")))
  ∈ tier_outcomes example_registry throwing_options onRequest (Some (js "api")) ().
Proof.
  apply (createHook_rejection_origin example_registry throwing_options onRequest
           (Some (js "api")) [] ()
           [(Global, 1%nat); (Global, 2%nat); (PerClient, 3%nat);
            (Local 0, 10%nat); (Local 1, 20%nat)]).
  by vm_compute.
Defined.

Lemma createHook_settled_for_good_witness :
  createHook example_registry example_options onRequest (Some (js "api"))
    ([1%nat; 0%nat] ++ [0%nat; 5%nat; 1%nat]) ()
  = ([(Global, 1%nat); (Global, 2%nat); (PerClient, 3%nat);
      (Local 0, 10%nat); (Local 1, 20%nat); (Local 1, 21%nat); (Local 0, 11%nat)],
     Fulfilled).
Proof.
  apply createHook_settled_for_good; [by vm_compute|done].
Defined.

Lemma createHook_never_settles_witness :
  (createHook example_registry stalled_options onRequest None [0%nat; 1%nat; 1%nat] ()).2
  = Pending.
Proof.
  apply createHook_never_settles.
  - assert (tier_outcomes example_registry stalled_options onRequest None ()
            = [Fulfilled; Fulfilled; Pending]) as -> by (by vm_compute).
    do 2 right. by left.
  - assert (tier_outcomes example_registry stalled_options onRequest None ()
            = [Fulfilled; Fulfilled; Pending]) as -> by (by vm_compute).
    by repeat constructor.
Defined.

Lemma createHook_throw_stops_list_witness :
  ∃ tr, createHook example_registry throwing_options onRequest (Some (js "api"))
          [0%nat] () = (tr, Rejected (Thrown (VString (js "boom"))))
        ∧ project (Local 1) tr = [20%nat]
        ∧ ∀ j, (1 < j)%nat -> project (Local j) tr = [].
Proof.
  apply (createHook_throw_stops_list example_registry throwing_options onRequest
           (Some (js "api")) [0%nat] ()
           [fun _ => Do 10%nat (Suspend (Do 11%nat Return))]
           [fun _ => Do 30%nat Return]
           (fun _ => Do 20%nat (Raise (Thrown (VString (js "boom")))))).
  - by vm_compute.
  - by repeat constructor.
  - done.
  - by vm_compute.
  - by vm_compute.
Defined.

(** * Further properties of the client factory *)

Section client_more.
Context {Ctx Action R : Type}.
Implicit Types (env : Runtime Ctx Action R) (options : BaseConfig Ctx Action)
  (localFetch : option (Fetch Ctx Action R)) (hooks : option (Hookable Ctx Action))
  (callOptions : option (FetchOptions Ctx Action)) (opts : TransportOptions Ctx Action).

Lemma path_of_transport_options options ident hooks callOptions :
  path_of (transport_options options ident hooks callOptions)
  = path_field (effectiveOptions options callOptions !! js "path").
Proof.
  unfold path_of, path_field. rewrite transport_options_lookup.
  replace (hook_of_name (js "path")) with (@None FetchHook) by done.
  destruct hooks; by destruct (effectiveOptions options callOptions !! js "path") as [[]|].
Qed.

Lemma getFetch_ext env url opts opts' localFetch :
  opts !! js "baseURL" = opts' !! js "baseURL" ->
  getFetch env url opts localFetch = getFetch env url opts' localFetch.
Proof. unfold getFetch. by intros ->. Qed.

Lemma baseURL_transport_options options ident hooks callOptions :
  transport_options options ident hooks callOptions !! js "baseURL"
  = transport_options options ident None callOptions !! js "baseURL".
Proof.
  rewrite !transport_options_lookup.
  replace (hook_of_name (js "baseURL")) with (@None FetchHook) by done.
  by destruct hooks.
Qed.

Lemma createOpenFetch_unfold env options localFetch ident hooks url callOptions :
  createOpenFetch env options localFetch ident hooks url callOptions
  = (resolved ← fillPath url
                  (path_of (transport_options options ident hooks callOptions));
     Normal (getFetch env url (transport_options options ident hooks callOptions)
               localFetch resolved
               (transport_options options ident hooks callOptions))).
Proof. done. Qed.

(** X12.  A hook registry changes neither the URL nor the transport of a
    call: with and without a registry the client resolves the same URL and
    selects the same transport; only the options the transport is called
    with differ (the four hook fields). *)
Theorem registry_changes_hooks_only env options localFetch ident hooks url callOptions :
  createOpenFetch env options localFetch ident hooks url callOptions
  = (resolved ← fillPath url (path_of (transport_options options ident None callOptions));
     Normal (getFetch env url (transport_options options ident None callOptions)
               localFetch resolved
               (transport_options options ident hooks callOptions))).
Proof.
  rewrite createOpenFetch_unfold.
  rewrite !path_of_transport_options.
  by rewrite (getFetch_ext env url _ _ localFetch
                (baseURL_transport_options options ident hooks callOptions)).
Qed.
End client_more.

Section client_errors.
Context {Ctx Action R : Type}.
Implicit Types (env : Runtime Ctx Action R) (options : BaseConfig Ctx Action)
  (localFetch : option (Fetch Ctx Action R)) (hooks : option (Hookable Ctx Action))
  (callOptions : option (FetchOptions Ctx Action)) (opts : TransportOptions Ctx Action).

(** X13.  For a call whose field [path] is as its type has it (missing,
    undefined, or a record of parameters): the call throws before the
    transport is called exactly when the path parameters of the effective
    options hold a value whose string form cannot be encoded; the error is a
    URIError. *)
Theorem createOpenFetch_throws_iff env options localFetch ident hooks url callOptions e :
  path_typed (effectiveOptions options callOptions !! js "path") ->
  createOpenFetch env options localFetch ident hooks url callOptions = Throw e
  <-> e = URIError
      ∧ ∃ r, effectiveOptions options callOptions !! js "path" = Some (ORecord r)
             ∧ Exists unencodable r.
Proof.
  intros _. rewrite createOpenFetch_unfold, path_of_transport_options.
  destruct (effectiveOptions options callOptions !! js "path") as [[v|r|h|hs]|] eqn:Hp;
    cbn [path_field].
  2: { destruct (fillPath url (Some r)) as [u|e'] eqn:Hf; cbn [mbind completion_bind].
       - split; [done|]. intros (-> & r' & [= <-] & Hex).
         assert (fillPath url (Some r) = Throw URIError) as Hf'
           by by apply fillPath_throws.
         congruence.
       - apply fillPath_throws in Hf as [-> Hex].
         split; [intros [= <-]; by eauto|by intros [-> _]]. }
  all: split; [done|by intros (_ & r & [=] & _)].
Qed.

(** X14.  The options of a call are merged over static base options key by
    key and no deeper: a key the call has hides the value the base has for
    it altogether, so a client behaves as if the base never had that key.
    The path parameters and the hooks of a call therefore replace those of
    the base, they are not combined with them. *)
Theorem call_key_hides_base_key env (o c : FetchOptions Ctx Action) localFetch ident hooks
    url (k : ustring) :
  is_Some (c !! k) ->
  createOpenFetch env (Static o) localFetch ident hooks url (Some c)
  = createOpenFetch env (Static (delete k o)) localFetch ident hooks url (Some c).
Proof.
  intros [v Hv].
  assert (effectiveOptions (Static o) (Some c)
          = effectiveOptions (Static (delete k o)) (Some c)) as Heq.
  { unfold effectiveOptions. cbn [default from_option id]. apply map_eq. intros k'.
    rewrite !lookup_union. destruct (decide (k' = k)) as [->|Hne].
    - rewrite Hv, lookup_delete_eq. by destruct (o !! k).
    - by rewrite lookup_delete_ne. }
  unfold createOpenFetch. by rewrite Heq.
Qed.
End client_errors.

Lemma createOpenFetch_throws_iff_witness :
  createOpenFetch recording_runtime (Static ∅) None None None (js "/pet/{petId}")
    (Some {[ js "path" := ORecord [(js "petId", VString [0xD800])] ]})
  = Throw URIError.
Proof.
  apply createOpenFetch_throws_iff.
  - right. right. eexists. by vm_compute.
  - split; [done|]. exists [(js "petId", VString [0xD800])].
    split; [by vm_compute|]. left. by vm_compute.
Defined.

Lemma createOpenFetch_call_path_witness :
  createOpenFetch recording_runtime
    (Static {[ js "path" := ORecord [(js "petId", VNumber 1); (js "size", VNumber 2)] ]})
    None None None (js "/pet/{petId}/{size}")
    (Some {[ js "path" := ORecord [(js "petId", VNumber 7)] ]})
  = Normal (js "/pet/7/{size}", [js "path"]).
Proof.
  etrans.
  - apply (call_key_hides_base_key recording_runtime _ _ None None None _ (js "path")).
    rewrite lookup_singleton_eq. by eexists.
  - by vm_compute.
Defined.

(** * The request interceptor *)

Section interceptor.
Context {Ctx Action R Rest : Type}.
Implicit Types (env : Runtime Ctx Action R) (config : BaseConfig Ctx Action)
  (localFetch : option (Fetch Ctx Action R)) (hooks : option (Hookable Ctx Action))
  (callOptions : option (FetchOptions Ctx Action)).

(** X15.  The interceptor and the client resolve a request alike, and the
    interceptor does no harm after the client: on a template whose
    placeholders do not nest and are pairwise distinct (the keys of the path
    parameters holding no closing brace), the interceptor turns the template
    into the URL the client calls the transport with, and applied to the
    context of that call, whose request is resolved already, it leaves
    the context as it is. *)
Theorem interceptor_after_client env config localFetch ident hooks callOptions
    segs (M : entries) (resolved : ustring) (rest : Rest) :
  effectiveOptions config callOptions !! js "path" = Some (ORecord M) ->
  Forall well_formed segs -> NoDup (params segs) ->
  NoDup M.*1 -> Forall (fun k => rbrace ∉ k) M.*1 ->
  fillPath (render segs) (Some M) = Normal resolved ->
  createOpenFetch env config localFetch ident hooks (render segs) callOptions
  = Normal (getFetch env (render segs) (transport_options config ident hooks callOptions)
              localFetch resolved (transport_options config ident hooks callOptions))
  ∧ openFetchRequestInterceptor
      {| request := render segs;
         options := transport_options config ident hooks callOptions;
         others := rest |}
    = Normal {| request := resolved;
                options := transport_options config ident hooks callOptions;
                others := rest |}
  ∧ openFetchRequestInterceptor
      {| request := resolved;
         options := transport_options config ident hooks callOptions;
         others := rest |}
    = Normal {| request := resolved;
                options := transport_options config ident hooks callOptions;
                others := rest |}.
Proof.
  intros Hp Hwf Hnd HndM Hk Hf.
  pose proof (fillPath_twice _ _ _ Hwf Hnd HndM Hk Hf) as Hf2.
  unfold openFetchRequestInterceptor. cbn [request options others].
  rewrite createOpenFetch_unfold, path_of_transport_options, Hp. cbn [path_field].
  by rewrite Hf, Hf2.
Qed.
End interceptor.

Lemma interceptor_after_client_witness :
  openFetchRequestInterceptor
    {| request := js "/pet/7";
       options := transport_options
                    (Static (∅ : FetchOptions unit nat)) None None
                    (Some {[ js "path" := ORecord [(js "petId", VNumber 7)] ]});
       others := () |}
  = Normal {| request := js "/pet/7";
              options := transport_options
                           (Static (∅ : FetchOptions unit nat)) None None
                           (Some {[ js "path" := ORecord [(js "petId", VNumber 7)] ]});
              others := () |}.
Proof.
  apply (interceptor_after_client recording_runtime
           (Static ∅) None None None
           (Some {[ js "path" := ORecord [(js "petId", VNumber 7)] ]})
           [Text (js "/pet/"); Param (js "petId")]
           [(js "petId", VNumber 7)] (js "/pet/7") ()).
  - by vm_compute.
  - repeat constructor; compute_done.
  - compute_done.
  - compute_done.
  - compute_done.
  - by vm_compute.
Defined.

(** * Values that are filled in unchanged *)

Lemma pct_octets_utf8_length cp : (3 <= length (pct_octets (utf8 cp)))%nat.
Proof.
  unfold utf8.
  destruct (cp <? 128); [cbn; lia|].
  destruct (cp <? 2048); [cbn; lia|].
  destruct (cp <? 65536); cbn; lia.
Qed.

Lemma encodeURIComponent_length s r :
  encodeURIComponent s = Normal r -> (length s <= length r)%nat.
Proof.
  remember (length s) as n eqn:Hn.
  revert s r Hn. induction n as [n IH] using lt_wf_ind. intros s r Hn.
  destruct s as [|c rest]; cbn [encodeURIComponent].
  - intros [= <-]. cbn in Hn. lia.
  - destruct (unescaped c).
    + destruct (encodeURIComponent rest) as [r'|] eqn:Hr; [|done].
      intros [= <-].
      pose proof (IH (length rest) ltac:(simpl in Hn; lia) rest r' eq_refl Hr).
      cbn [length] in *. lia.
    + destruct (is_lead c).
      * destruct rest as [|d rest']; [done|].
        destruct (is_trail d); [|done].
        destruct (encodeURIComponent rest') as [r'|] eqn:Hr; [|done].
        intros [= <-].
        pose proof (IH (length rest') ltac:(simpl in Hn; lia) rest' r' eq_refl Hr).
        pose proof (pct_octets_utf8_length (UTF16SurrogatePairToCodePoint c d)).
        rewrite length_app. cbn [length] in *. lia.
      * destruct (is_trail c); [done|].
        destruct (encodeURIComponent rest) as [r'|] eqn:Hr; [|done].
        intros [= <-].
        pose proof (IH (length rest) ltac:(simpl in Hn; lia) rest r' eq_refl Hr).
        pose proof (pct_octets_utf8_length c).
        rewrite length_app. cbn [length] in *. lia.
Qed.

(** X16.  [encodeURIComponent] returns its argument unchanged exactly when
    the argument is made of unreserved characters (letters, digits and
    [-_.!~*'()]); every other string is changed or rejected, so a value is
    filled into a path as it is only if it is made of those characters. *)
Theorem encodeURIComponent_fixed_iff s :
  encodeURIComponent s = Normal s <-> Forall (fun c => unescaped c = true) s.
Proof.
  split; [|apply encode_unescaped].
  induction s as [|c rest IH]; [constructor|].
  cbn [encodeURIComponent]. destruct (unescaped c) eqn:Hu.
  - destruct (encodeURIComponent rest) as [r'|] eqn:Hr; [|done].
    intros [= ->]. constructor; [done|by apply IH].
  - intros H. exfalso.
    assert (∃ cp rest' r', encodeURIComponent rest' = Normal r'
                           ∧ (length rest <= S (length rest'))%nat
                           ∧ c :: rest = pct_octets (utf8 cp) ++ r')
      as (cp & rest' & r' & Hr & Hlen & Heq).
    { destruct (is_lead c).
      - destruct rest as [|d rest']; [done|].
        destruct (is_trail d); [|done].
        destruct (encodeURIComponent rest') as [r'|] eqn:Hr; [|done].
        injection H as H. exists (UTF16SurrogatePairToCodePoint c d), rest', r'.
        split_and!; [done|cbn [length]; lia|done].
      - destruct (is_trail c); [done|].
        destruct (encodeURIComponent rest) as [r'|] eqn:Hr; [|done].
        injection H as H. exists c, rest, r'. split_and!; [done|lia|done]. }
    apply encodeURIComponent_length in Hr.
    apply (f_equal length) in Heq. rewrite length_app in Heq.
    pose proof (pct_octets_utf8_length cp). cbn [length] in Heq. lia.
Qed.

(** * Values that are not strings *)

Lemma jsval_nested_ind (P : jsval -> Prop) :
  P VUndefined -> P VNull -> (∀ b, P (VBool b)) -> (∀ x, P (VNumber x)) ->
  (∀ s, P (VString s)) -> (∀ l, Forall P l -> P (VArray l)) ->
  ∀ v, P v.
Proof.
  intros Hu Hn Hb Hx Hs Ha. fix IH 1.
  intros [| |b|x|s|l]; [exact Hu|exact Hn|apply Hb|apply Hx|apply Hs|].
  apply Ha. induction l as [|v l IHl]; constructor; [apply IH|exact IHl].
Qed.

Lemma js_low str : Forall (fun c => c < 0xD800) (js str).
Proof.
  unfold js. induction str as [|a str IH]; cbn [list_ascii_of_string List.map];
    constructor; [|exact IH].
  pose proof (N_ascii_bounded a). lia.
Qed.

Lemma strip_zeros_low ds :
  Forall (fun c => c < 0xD800) ds -> Forall (fun c => c < 0xD800) (strip_zeros ds).
Proof.
  induction 1 as [|d r Hd _ IH]; cbn [strip_zeros]; [constructor|].
  destruct (strip_zeros r) as [|z l].
  - destruct (d =? 48); [constructor|by repeat constructor].
  - by constructor.
Qed.

Lemma NumberToString_low x : Forall (fun c => c < 0xD800) (NumberToString x).
Proof.
  assert (∀ n, Forall (fun c => c < 0xD800) (replicate n 48)) as Hrep.
  { intros n. apply Forall_replicate. lia. }
  destruct x as [neg s n| |neg]; cbn [NumberToString]; [|apply js_low|].
  - destruct (s =? 0)%N; [apply js_low|].
    pose proof (strip_zeros_low _ (js_low (NilZero.string_of_uint (N.to_uint s)))) as Hd.
    fold (decimal s) in Hd. cbv zeta.
    apply Forall_app. split; [destruct neg; [apply js_low|constructor]|].
    destruct ((-5 <=? n) && (n <=? 21)).
    + destruct (_ <=? n); [by apply Forall_app|].
      destruct (0 <? n).
      * apply Forall_app. split; [by apply Forall_take|].
        apply Forall_app. split; [apply js_low|by apply Forall_drop].
      * apply Forall_app. split; [apply js_low|by apply Forall_app].
    + assert (Forall (fun c => c < 0xD800)
                ((if n - 1 <? 0 then js "-" else js "+") ++ decimal (Z.abs_N (n - 1))))
        as He.
      { apply Forall_app. split; [destruct (n - 1 <? 0); apply js_low|apply js_low]. }
      destruct (strip_zeros (decimal s)) as [|d [|d' rest]]; [constructor| |].
      * apply Forall_cons in Hd as [Hd _].
        apply Forall_app. split; [by repeat constructor|].
        apply Forall_app. split; [apply js_low|done].
      * apply Forall_cons in Hd as [Hd Hrest].
        apply Forall_app. split; [by repeat constructor|].
        apply Forall_app. split; [apply js_low|].
        apply Forall_app. split; [done|].
        apply Forall_app. split; [apply js_low|done].
  - apply Forall_app. split; [destruct neg; [apply js_low|constructor]|apply js_low].
Qed.

Lemma isWellFormed_low s : Forall (fun c => c < 0xD800) s -> isWellFormed s = true.
Proof.
  induction 1 as [|c s Hc _ IH]; [done|]. cbn [isWellFormed].
  assert (is_lead c = false) as -> by (unfold is_lead; lia).
  assert (is_trail c = false) as -> by (unfold is_trail; lia).
  done.
Qed.

Lemma isWellFormed_app a b :
  isWellFormed a = true -> isWellFormed b = true -> isWellFormed (a ++ b) = true.
Proof.
  intros Ha Hb. remember (length a) as n eqn:Hn.
  revert a Hn Ha. induction n as [n IH] using lt_wf_ind. intros a Hn.
  destruct a as [|c rest]; [done|]. cbn [isWellFormed app].
  destruct (is_lead c).
  - destruct rest as [|d rest']; [done|]. cbn [app].
    intros [Hd Hrest]%andb_prop. rewrite Hd. cbn [andb].
    by apply (IH (length rest')); [cbn in Hn; lia|..].
  - intros [Hc Hrest]%andb_prop. rewrite Hc. cbn [andb].
    by apply (IH (length rest)); [cbn in Hn; lia|..].
Qed.

Lemma ToString_well_formed v :
  strings_well_formed v = true -> isWellFormed (ToString v) = true.
Proof.
  induction v as [| |b|x|s|l IH] using jsval_nested_ind; cbn [ToString strings_well_formed].
  - intros _. apply isWellFormed_low, js_low.
  - intros _. apply isWellFormed_low, js_low.
  - intros _. destruct b; apply isWellFormed_low, js_low.
  - intros _. apply isWellFormed_low, NumberToString_low.
  - done.
  - induction IH as [|v l Hv _ IHl]; [done|].
    cbn [forallb Array_join]. intros [Hwv Hwl]%andb_prop.
    apply isWellFormed_app.
    + destruct v; auto.
    + destruct l as [|v' l']; [done|].
      apply isWellFormed_app; [apply isWellFormed_low, js_low|by apply IHl].
Qed.

Lemma encode_well_formed s :
  isWellFormed s = true -> ∃ r, encodeURIComponent s = Normal r.
Proof.
  remember (length s) as n eqn:Hn.
  revert s Hn. induction n as [n IH] using lt_wf_ind. intros s Hn.
  destruct s as [|c rest]; cbn [encodeURIComponent isWellFormed]; [by eauto|].
  destruct (unescaped c) eqn:Hu.
  - destruct (unescaped_not_surrogate _ Hu) as [-> ->]. cbn [negb andb]. intros Hw.
    destruct (IH (length rest)) with (s := rest) as [r ->];
      [simpl in Hn; lia|done|done|by eauto].
  - destruct (is_lead c).
    + destruct rest as [|d rest']; [done|].
      intros [-> Hw]%andb_prop.
      destruct (IH (length rest')) with (s := rest') as [r ->];
        [simpl in Hn; lia|done|done|by eauto].
    + intros [Hc Hw]%andb_prop. apply negb_true_iff in Hc. rewrite Hc.
      destruct (IH (length rest)) with (s := rest) as [r ->];
        [simpl in Hn; lia|done|done|by eauto].
Qed.

(** C10, as amended.  A value that is undefined, null, a boolean, a number
    or an array is filled in as the percent-encoded form of its string
    coercion; when every string the value holds (at any depth of its arrays)
    has its surrogates paired, [encodeURIComponent] returns for each value
    and [fillPath] returns the path with these values filled in, and does not
    throw.  Undefined, null, booleans and numbers hold no string at all. *)
Theorem fillPath_coerces_values path (M : entries) :
  Forall (fun kv => strings_well_formed kv.2 = true) M ->
  ∃ rs, Forall2 (fun kv kr => kr.1 = kv.1
                              ∧ encodeURIComponent (ToString kv.2) = Normal kr.2) M rs
        ∧ fillPath path (Some M)
          = Normal (foldl (fun p kr => replace_first (placeholder kr.1) kr.2 p) path rs).
Proof.
  intros HM.
  assert (∃ rs, encode_entries M = Normal rs
                ∧ Forall2 (fun kv kr => kr.1 = kv.1
                             ∧ encodeURIComponent (ToString kv.2) = Normal kr.2) M rs)
    as (rs & Hrs & Hall).
  { induction HM as [|[k v] M Hv _ (rs & Hrs & IH)]; [exists []; by split|].
    cbn [snd] in Hv.
    destruct (encode_well_formed _ (ToString_well_formed _ Hv)) as [r Hr].
    exists ((k, r) :: rs). cbn [encode_entries]. rewrite Hr, Hrs.
    split; [done|]. by constructor. }
  exists rs. split; [done|].
  unfold fillPath. change (default [] (Some M)) with M.
  rewrite fillPath_loop_encode, Hrs. cbn [mbind completion_bind]. f_equal.
  apply foldl_replace_literal. by apply encode_entries_spec in Hrs as (_ & ? & _).
Qed.

Lemma fillPath_coerces_values_witness :
  (∃ rs, Forall2 (fun kv kr => kr.1 = kv.1
                               ∧ encodeURIComponent (ToString kv.2) = Normal kr.2)
           [(js "petId", VNumber 1);
            (js "big", VNumber (10 ^ 21));
            (js "half", VNumber (Finite false 15 1));
            (js "ids", VArray [VNumber 1; VNull; VArray [VBool true; VString (js "x y")]]);
            (js "none", VUndefined);
            (js "tiny", VNumber (Finite true 1 (-6)))] rs
         ∧ fillPath (js "/pet/{petId}/{big}/{half}/{ids}/{none}/{tiny}")
             (Some [(js "petId", VNumber 1);
                    (js "big", VNumber (10 ^ 21));
                    (js "half", VNumber (Finite false 15 1));
                    (js "ids", VArray [VNumber 1; VNull;
                                       VArray [VBool true; VString (js "x y")]]);
                    (js "none", VUndefined);
                    (js "tiny", VNumber (Finite true 1 (-6)))])
           = Normal (foldl (fun p kr => replace_first (placeholder kr.1) kr.2 p)
                       (js "/pet/{petId}/{big}/{half}/{ids}/{none}/{tiny}") rs))
  ∧ fillPath (js "/pet/{petId}/{big}/{half}/{ids}/{none}/{tiny}")
      (Some [(js "petId", VNumber 1);
             (js "big", VNumber (10 ^ 21));
             (js "half", VNumber (Finite false 15 1));
             (js "ids", VArray [VNumber 1; VNull;
                                VArray [VBool true; VString (js "x y")]]);
             (js "none", VUndefined);
             (js "tiny", VNumber (Finite true 1 (-6)))])
    = Normal (js "/pet/1/1e%2B21/1.5/1%2C%2Ctrue%2Cx%20y/undefined/-1e-7").
Proof.
  split.
  - apply fillPath_coerces_values. by repeat constructor.
  - by vm_compute.
Defined.

(** The example of the claim, and numbers whose string form is not their
    digits alone. *)
Example fillPath_numbers :
  fillPath (js "/pet/{petId}") (Some [(js "petId", VNumber 1)]) = Normal (js "/pet/1")
  ∧ fillPath (js "/pet/{petId}") (Some [(js "petId", VNumber (10 ^ 21))])
    = Normal (js "/pet/1e%2B21")
  ∧ ToString (VNumber (10 ^ 21)) = js "1e+21"
  ∧ ToString (VNumber (123456789012345680000)) = js "123456789012345680000"
  ∧ ToString (VNumber (Finite false 1234 25)) = js "1.234e+24"
  ∧ ToString (VNumber (Finite false 1 (-5))) = js "0.000001"
  ∧ ToString (VNumber (Finite false 1200 2)) = js "12"
  ∧ ToString (VNumber (Finite true 0 0)) = js "0"
  ∧ ToString (VNumber NaN) = js "NaN"
  ∧ ToString (VNumber (Infinity true)) = js "-Infinity"
  ∧ ToString (VArray [VString (js "a"); VUndefined; VArray []; VNumber 2]) = js "a,,,2".
Proof. by vm_compute. Qed.

(** The claim C10 as stated fails for an array that holds a string with an
    unpaired surrogate: the array is not a string, its string coercion is
    that string, and [encodeURIComponent] throws on it. *)
Lemma fillPath_array_throws :
  is_string (VArray [VString [0xD800]]) = false
  ∧ fillPath (js "/pet/{petId}") (Some [(js "petId", VArray [VString [0xD800]])])
    = Throw URIError.
Proof. by vm_compute. Qed.
